(** * cozely/loop: a fixed-timestep application loop

    A shallow embedding of the Go package [loop] (the loop controller, its
    timing model, the statistics collector and the option queue of
    [options.go]) together with the properties of its specification.

    Conventions of the embedding.
    - [time.Duration] is an [int64] counting nanoseconds and Go's [int] is
      taken to be 64 bits wide: both are [Z] with the wrap-around of the
      machine operations written out ([Int64.add], [Int64.sub], [Int64.mul]).
    - [float64] is Rocq's primitive binary64 float.
    - The package-level variables are the fields of one record, [Globals].
    - A [State] is an interface value: [None] is Go's [nil], [Some s] is a
      state whose five methods are code outside the package.  That code can
      reach the package only through its exported functions, so a method
      call is modelled by the list of [Goto], [Stop] and [Configure] calls it
      makes (chosen from what it can observe and from the application's own
      data) and the read accessors are functions of the globals.  A method
      that calls [Run] while the loop runs gets the reentrancy error and
      changes nothing; a call of [Run] nested in the three priming calls,
      or a direct call of an [Option] value by a method, is not modelled.
    - [time.Now] is outside the package: [Run] receives the successive
      values of [t1.Sub(t0)], one per iteration.  The list is also the fuel
      of the outer loop: when it is used up and [next] is not nil, the run is
      reported as [Unfinished]. *)

From Stdlib Require Import ZArith List Bool String Lia.
From Stdlib Require PrimFloat Uint63.
Import ListNotations.
Local Open Scope Z_scope.

(** ** Machine integers *)

Module Int64.

Definition min_int : Z := - 2 ^ 63.
Definition max_int : Z := 2 ^ 63 - 1.

(** The value an [int64] holds after an operation whose exact result is [z]. *)
Definition wrap (z : Z) : Z := (z + 2 ^ 63) mod 2 ^ 64 - 2 ^ 63.

Definition add (a b : Z) : Z := wrap (a + b).
Definition sub (a b : Z) : Z := wrap (a - b).
Definition mul (a b : Z) : Z := wrap (a * b).

Definition fits (z : Z) : Prop := min_int <= z <= max_int.

End Int64.

(** ** Package [time] *)

Definition Duration := Z.

Definition Nanosecond : Duration := 1.
Definition Millisecond : Duration := 1000000 * Nanosecond.
Definition Second : Duration := 1000 * Millisecond.

(** ** [float64] *)

Definition float64 := PrimFloat.float.

(** The conversion [float64(x)] of an [int64]: the nearest float, ties to
    even.  [PrimFloat.of_uint63] is that conversion on [0 .. 2^63 - 1]. *)
Definition float64_of_int (z : Z) : float64 :=
  if 0 <=? z then PrimFloat.of_uint63 (Uint63.of_Z z)
  else if z =? Int64.min_int
       then PrimFloat.opp (PrimFloat.mul (PrimFloat.of_uint63 (Uint63.of_Z (2 ^ 62))) PrimFloat.two)
       else PrimFloat.opp (PrimFloat.of_uint63 (Uint63.of_Z (- z))).

(** ** The data of the package *)

(** [errors.New(msg)] and the errors returned by options. *)
Definition error := string.

(** The dynamic type and value behind a non-nil [State]. *)
Definition StateId := nat.

(** [type State interface { Enter(); Leave(); React(); Update(); Render() }] *)
Definition State := option StateId.

Inductive Method := Enter | Leave | React | Update | Render.

Definition Method_eqb (a b : Method) : bool :=
  match a, b with
  | Enter, Enter | Leave, Leave | React, React | Update, Update | Render, Render => true
  | _, _ => false
  end.

(** [type Option func(p *private) error].  The package builds options with
    [TimeStep]; [Custom n] stands for any other function value of the type
    (its behaviour is given by the application), [NilOption] for the nil
    function. *)
Inductive Option :=
| TimeStep (s : Duration)
| Custom (n : nat)
| NilOption.

(** [interval struct { frames int; time time.Duration; xruns int }] *)
Record Interval := mkInterval {
  frames : Z;
  time : Duration;
  interval_xruns : Z
}.

Record Globals := mkGlobals {
  state : State;
  next : State;
  step : Duration;
  delta : Duration;
  lag : Duration;
  frametime : float64;
  xruns : Z;
  interval : Interval;
  options : list Option
}.

(** The package as it is when the program starts. *)
Definition initial : Globals :=
  {| state := None; next := None;
     step := Second ÷ 60; delta := 0; lag := 0;
     frametime := PrimFloat.zero; xruns := 0;
     interval := mkInterval 0 0 0;
     options := [] |}.

Definition set_state (v : State) (g : Globals) : Globals :=
  mkGlobals v (next g) (step g) (delta g) (lag g) (frametime g) (xruns g) (interval g) (options g).
Definition set_next (v : State) (g : Globals) : Globals :=
  mkGlobals (state g) v (step g) (delta g) (lag g) (frametime g) (xruns g) (interval g) (options g).
Definition set_step (v : Duration) (g : Globals) : Globals :=
  mkGlobals (state g) (next g) v (delta g) (lag g) (frametime g) (xruns g) (interval g) (options g).
Definition set_delta (v : Duration) (g : Globals) : Globals :=
  mkGlobals (state g) (next g) (step g) v (lag g) (frametime g) (xruns g) (interval g) (options g).
Definition set_lag (v : Duration) (g : Globals) : Globals :=
  mkGlobals (state g) (next g) (step g) (delta g) v (frametime g) (xruns g) (interval g) (options g).
Definition set_frametime (v : float64) (g : Globals) : Globals :=
  mkGlobals (state g) (next g) (step g) (delta g) (lag g) v (xruns g) (interval g) (options g).
Definition set_xruns (v : Z) (g : Globals) : Globals :=
  mkGlobals (state g) (next g) (step g) (delta g) (lag g) (frametime g) v (interval g) (options g).
Definition set_interval (v : Interval) (g : Globals) : Globals :=
  mkGlobals (state g) (next g) (step g) (delta g) (lag g) (frametime g) (xruns g) v (options g).
Definition set_options (v : list Option) (g : Globals) : Globals :=
  mkGlobals (state g) (next g) (step g) (delta g) (lag g) (frametime g) (xruns g) (interval g) v.

(** ** The exported functions that do not run the loop *)

(** [func Running() bool { return state != nil }] *)
Definition Running (g : Globals) : bool :=
  match state g with Some _ => true | None => false end.

(** [func Goto(l State) { next = l }] *)
Definition Goto (l : State) (g : Globals) : Globals := set_next l g.

(** [func Stop() { next = nil }] *)
Definition Stop (g : Globals) : Globals := set_next None g.

Definition Step (g : Globals) : Duration := step g.
Definition Delta (g : Globals) : Duration := delta g.
Definition Lag (g : Globals) : Duration := lag g.

(** [func Configure(o ...Option) { options = append(options, o...) }] *)
Definition Configure (o : list Option) (g : Globals) : Globals :=
  set_options (options g ++ o) g.

(** ** Statistics *)

Definition statsInterval : Duration := Second ÷ 4.
Definition xrunThreshold : Duration := 17 * Millisecond.

(** [func Stats() (frametime float64, overruns int) { return frametime, xruns }]

    The results are named: inside the body [frametime] is the first result
    variable, which hides the package variable of the same name and holds
    the zero value; [xruns] is the package variable. *)
Definition Stats (g : Globals) : float64 * Z :=
  let frametime : float64 := PrimFloat.zero in
  let overruns : Z := 0 in
  (frametime, xruns g).

(** [func stats()]: it has no result variables, so here [frametime] and
    [xruns] are the package variables. *)
Definition stats (g : Globals) : Globals :=
  let i := interval g in
  let i := mkInterval (Int64.add (frames i) 1) (time i) (interval_xruns i) in
  let i := mkInterval (frames i) (Int64.add (time i) (delta g)) (interval_xruns i) in
  let i := if delta g >? xrunThreshold
           then mkInterval (frames i) (time i) (Int64.add (interval_xruns i) 1)
           else i in
  if time i >=? statsInterval then
    let g := set_frametime (PrimFloat.div (float64_of_int (time i)) (float64_of_int (frames i))) g in
    let g := set_xruns (interval_xruns i) g in
    set_interval (mkInterval 0 0 0) g
  else set_interval i g.

(** ** Code outside the package *)

(** A call into the package made by a state's method or by a custom option. *)
Inductive Call :=
| CallGoto (l : State)
| CallStop
| CallConfigure (o : list Option).

Definition exec (g : Globals) (c : Call) : Globals :=
  match c with
  | CallGoto l => Goto l g
  | CallStop => Stop g
  | CallConfigure o => Configure o g
  end.

(** What an observer of the run sees: each method call, with the receiver,
    the globals the method finds and the calls it makes; each option
    applied, with the calls it makes and the error it returns. *)
Inductive Event :=
| Called (s : StateId) (m : Method) (g : Globals) (calls : list Call)
| Applied (o : Option) (calls : list Call) (err : option error).

(** How [Run] ends. *)
Inductive Outcome :=
| Returned (err : option error)   (* [return err]; [None] is the nil error *)
| Panicked                         (* a nil interface or function value is called *)
| Unfinished.                      (* the fuel ran out inside a loop *)

(** ** A sample application *)

(** Three states over a counter of the frames rendered.  React of state 0
    asks for state 1 and then for state 2; Render asks to stop once three
    frames are rendered; the other methods do nothing. *)
Definition demo_method (s : StateId) (m : Method) (g : Globals) (rendered : nat)
  : list Call * nat :=
  match m with
  | Render => (if (2 <=? rendered)%nat then [CallStop] else [], S rendered)
  | React => (match s with
              | O => [CallGoto (Some 1%nat); CallGoto (Some 2%nat)]
              | _ => []
              end, rendered)
  | _ => ([], rendered)
  end.

(** Custom option 0 returns an error once two frames are rendered; the
    other custom options return nil. *)
Definition demo_custom (n : nat) (g : Globals) (rendered : nat)
  : list Call * option error * nat :=
  match n with
  | O => ([], if (2 <=? rendered)%nat then Some "boom"%string else None, rendered)
  | _ => ([], None, rendered)
  end.

(** The package after [Configure(TimeStep(20ms), custom0, custom1)]. *)
Definition demo_globals : Globals :=
  Configure [TimeStep (20 * Millisecond); Custom 0; Custom 1] initial.

(** ** The loop *)

Section Loop.

(** The application: its own data, what each method of each state does
    when it is called (the calls it makes into the package, given the
    globals its accessors can read and the application's data), and what
    each custom option does and returns. *)
Variable App : Type.
Variable method : StateId -> Method -> Globals -> App -> list Call * App.
Variable custom : nat -> Globals -> App -> list Call * option error * App.

Record World := mkWorld {
  globals : Globals;
  app : App;
  trace : list Event
}.

(** *** A monad for the body of [Run]: state, and early exit *)

Inductive Res (A : Type) :=
| Ok (a : A) (w : World)
| Halt (o : Outcome) (w : World).
Arguments Ok {A} a w.
Arguments Halt {A} o w.

Definition M (A : Type) := World -> Res A.

Definition ret {A} (a : A) : M A := fun w => Ok a w.

Definition bind {A B} (m : M A) (k : A -> M B) : M B :=
  fun w => match m w with
           | Ok a w' => k a w'
           | Halt o w' => Halt o w'
           end.

Definition halt {A} (o : Outcome) : M A := fun w => Halt o w.

Definition get : M Globals := fun w => Ok (globals w) w.

Definition modify (f : Globals -> Globals) : M unit :=
  fun w => Ok tt (mkWorld (f (globals w)) (app w) (trace w)).

Notation "x <- m ;; k" := (bind m (fun x => k))
  (at level 61, m at next level, right associativity).
Notation "m ;; k" := (bind m (fun _ => k))
  (at level 61, right associativity).

(** *** Calls that leave the package *)

(** The method [m] of the state [s] runs in the world [w]. *)
Definition invoke (s : StateId) (m : Method) (w : World) : World :=
  let '(calls, a) := method s m (globals w) (app w) in
  mkWorld (fold_left exec calls (globals w)) a
          (trace w ++ [Called s m (globals w) calls]).

(** [st.m()]: a method call on an interface value. *)
Definition call (st : State) (m : Method) : M unit :=
  fun w => match st with
           | None => Halt Panicked w
           | Some s => Ok tt (invoke s m w)
           end.

(** [func TimeStep(s time.Duration) Option]: the option sets [step] and
    returns nil. *)
Definition applyTimeStep (s : Duration) (w : World) : World :=
  mkWorld (set_step s (globals w)) (app w)
          (trace w ++ [Applied (TimeStep s) [] None]).

Definition applyCustom (n : nat) (w : World) : option error * World :=
  let '(calls, err, a) := custom n (globals w) (app w) in
  (err, mkWorld (fold_left exec calls (globals w)) a
                (trace w ++ [Applied (Custom n) calls err])).

(** [o(&private{})] *)
Definition apply (o : Option) : M (option error) :=
  fun w => match o with
           | TimeStep s => Ok None (applyTimeStep s w)
           | Custom n => let '(err, w') := applyCustom n w in Ok err w'
           | NilOption => Halt Panicked w
           end.

(** *** [Run], phase by phase *)

(** [for _, o := range options { err := o(&private{}); if err != nil { return err } }]
    The range expression is evaluated once: [os] is the slice as it is
    when the loop starts. *)
Fixpoint applyOptions (os : list Option) : M unit :=
  match os with
  | [] => ret tt
  | o :: os' =>
      err <- apply o ;;
      match err with
      | Some e => halt (Returned (Some e))
      | None => applyOptions os'
      end
  end.

(** [for lag >= step { lag -= step; state.React(); state.Update() }] *)
Fixpoint drain (fuel : nat) : M unit :=
  g <- get ;;
  if lag g >=? step g then
    match fuel with
    | O => halt Unfinished
    | S fuel' =>
        modify (fun g => set_lag (Int64.sub (lag g) (step g)) g) ;;
        g <- get ;; call (state g) React ;;
        g <- get ;; call (state g) Update ;;
        drain fuel'
    end
  else ret tt.

(** Lines 115-126: React, and (maybe) Update; Render. *)
Definition callbacks (fuel : nat) : M unit :=
  g <- get ;;
  (if lag g <? step g then call (state g) React else ret tt) ;;
  drain fuel ;;
  g <- get ;; call (state g) Render.

(** Lines 130-136, [elapsed] being the value of [t1.Sub(t0)]. *)
Definition measure (elapsed : Duration) (g : Globals) : Globals :=
  let g := set_delta elapsed g in
  let g := stats g in
  let g := if delta g >? Int64.mul 4 (step g)
           then set_delta (Int64.mul 4 (step g)) g
           else g in
  set_lag (Int64.add (lag g) (delta g)) g.

(** The body of the [for next != nil] loop. *)
Definition iteration (fuel : nat) (elapsed : Duration) : M unit :=
  modify (fun g => set_state (next g) g) ;;
  g <- get ;; applyOptions (options g) ;;
  callbacks fuel ;;
  modify (measure elapsed).

(** [for next != nil { ... }; state.Leave(); state = nil; return nil] *)
Fixpoint loop (fuel : nat) (clock : list Duration) : M (option error) :=
  g <- get ;;
  match next g with
  | Some _ =>
      match clock with
      | [] => halt Unfinished
      | elapsed :: clock' => iteration fuel elapsed ;; loop fuel clock'
      end
  | None =>
      call (state g) Leave ;;
      modify (set_state None) ;;
      ret None
  end.

Definition already_running : error := "loop.Run: already running"%string.

Definition body (start : State) (fuel : nat) (clock : list Duration) : M (option error) :=
  g <- get ;;
  if Running g then ret (Some already_running)
  else
    call start Enter ;;
    call start React ;;
    call start Update ;;
    modify (set_next start) ;;
    modify (fun g => set_lag 0 (set_delta 0 g)) ;;
    loop fuel clock.

(** [func Run(start State) (err error)].  [fuel] bounds the number of
    rounds of each drain loop, [clock] gives the elapsed time measured at
    the end of each iteration. *)
Definition Run (start : State) (fuel : nat) (clock : list Duration)
           (w : World) : Outcome * World :=
  match body start fuel clock w with
  | Ok err w' => (Returned err, w')
  | Halt o w' => (o, w')
  end.


(** ** Vocabulary of the properties *)

(** Lines 94-101 on a non-nil [start]: the three priming calls, then
    [next = start] and [delta, lag = 0, 0]. *)
Definition prime (s : StateId) (w : World) : World :=
  let w := invoke s Update (invoke s React (invoke s Enter w)) in
  mkWorld (set_lag 0 (set_delta 0 (set_next (Some s) (globals w)))) (app w) (trace w).

(** Line 105, [state = next]. *)
Definition promote (w : World) : World :=
  mkWorld (set_state (next (globals w)) (globals w)) (app w) (trace w).

(** Lines 140-141 when [state] holds [s]. *)
Definition finish (s : StateId) (w : World) : World :=
  let w := invoke s Leave w in
  mkWorld (set_state None (globals w)) (app w) (trace w).

(** [reaches fuel clock w w']: from [w] at the top of the [for] loop, the
    loop makes one full iteration per element of [clock] and is at its top
    again in [w']. *)
Inductive reaches (fuel : nat) : list Duration -> World -> World -> Prop :=
| reaches_nil w : reaches fuel [] w w
| reaches_cons e clock w w1 w2 s :
    next (globals w) = Some s ->
    iteration fuel e w = Ok tt w1 ->
    reaches fuel clock w1 w2 ->
    reaches fuel (e :: clock) w w2.

(** The calls into the package recorded in a piece of trace, in order. *)
Definition issued (evs : list Event) : list Call :=
  flat_map (fun ev => match ev with
                      | Called _ _ _ cs => cs
                      | Applied _ cs _ => cs
                      end) evs.

(** A call that assigns [next]. *)
Definition writes_next (c : Call) : bool :=
  match c with
  | CallGoto _ | CallStop => true
  | CallConfigure _ => false
  end.

Definition is_call (m : Method) (ev : Event) : bool :=
  match ev with
  | Called _ m' _ _ => Method_eqb m m'
  | Applied _ _ _ => false
  end.

(** How many times the method [m] is called in a piece of trace. *)
Definition count_method (m : Method) (evs : list Event) : nat :=
  List.length (filter (is_call m) evs).

(** [k] rounds of the drain loop. *)
Fixpoint pairs (k : nat) : list Method :=
  match k with
  | O => []
  | S k' => React :: Update :: pairs k'
  end.

(** The event is a call of the method [m] on the state [s], made while
    [state] holds [s]. *)
Definition call_on (s : StateId) (m : Method) (ev : Event) : Prop :=
  exists g cs, ev = Called s m g cs /\ state g = Some s.

(** The event belongs to an iteration whose current state is [s]: an option
    being applied, or one of React, Update, Render called on [s] while
    [state] holds [s]. *)
Definition in_iteration (s : StateId) (ev : Event) : Prop :=
  match ev with
  | Called s' m g _ => s' = s /\ state g = Some s /\ (m = React \/ m = Update \/ m = Render)
  | Applied _ _ _ => True
  end.

(** The trace of [w'] is the trace of [w] followed by events that satisfy [T]. *)
Definition grows (T : Event -> Prop) (w w' : World) : Prop :=
  exists evs, trace w' = trace w ++ evs /\ Forall T evs.

(** Weakest preconditions: [m], run in [w], ends normally in a world that
    satisfies [Q] or leaves [Run] in a world that satisfies [E]. *)
Definition wp {A} (m : M A) (Q : A -> World -> Prop) (E : Outcome -> World -> Prop)
           (w : World) : Prop :=
  match m w with
  | Ok a w' => Q a w'
  | Halt o w' => E o w'
  end.

(** A bound on [step] under which no operation of the timing model overflows. *)
Definition max_step : Z := 2 ^ 60.

(** An option that keeps [step] positive and at most [max_step]. *)
Definition good_option (o : Option) : Prop :=
  match o with
  | TimeStep s => 0 < s <= max_step
  | Custom _ => True
  | NilOption => True
  end.

Definition good_call (c : Call) : Prop :=
  match c with
  | CallConfigure os => Forall good_option os
  | _ => True
  end.

(** The configuration is in order: [step] is positive and not above
    [max_step], and so is every step the queued options set. *)
Definition config_ok (g : Globals) : Prop :=
  0 < step g <= max_step /\ Forall good_option (options g).

(** The timing model is in order: the configuration is, and [lag] is not
    negative and small enough for [lag += delta] not to overflow. *)
Definition timing_ok (g : Globals) : Prop :=
  config_ok g /\ 0 <= lag g <= 5 * max_step.

(** What a Render call finds: [0 <= Lag() < Step()]. *)
Definition render_ok (ev : Event) : Prop :=
  match ev with
  | Called _ Render g _ => 0 <= Lag g < Step g
  | _ => True
  end.

(** What [next] holds after the calls [cs], if it held [n] before: each
    [Goto] and each [Stop] overwrites it. *)
Definition pending (cs : list Call) (n : State) : State :=
  fold_left (fun n c => match c with
                        | CallGoto l => l
                        | CallStop => None
                        | CallConfigure _ => n
                        end) cs n.

(** [phase s w w']: the run went from [w] to [w'] inside an iteration whose
    current state is [s]: [state] holds [s], the trace grew by events of
    that iteration, and [next] changed only by the calls they made. *)
Definition phase (s : StateId) (w w' : World) : Prop :=
  state (globals w') = Some s /\
  exists evs, trace w' = trace w ++ evs /\ Forall (in_iteration s) evs /\
              next (globals w') = pending (issued evs) (next (globals w)).

(** The event is the option [o] applied, returning [err]. *)
Definition applied (err : option error) (o : Option) (ev : Event) : Prop :=
  exists cs, ev = Applied o cs err.

(** The event belongs to some iteration of the loop. *)
Definition in_loop (ev : Event) : Prop := exists s, in_iteration s ev.

(** The run is in order since the trace was [tr0]: the timing model is,
    and every Render call made since found [0 <= Lag() < Step()]. *)
Definition in_order (tr0 : list Event) (w : World) : Prop :=
  timing_ok (globals w) /\
  exists evs, trace w = tr0 ++ evs /\ Forall render_ok evs.

(** [iterate fuel clock w]: the world at the top of the loop after one full
    iteration per element of [clock], when the loop makes them all. *)
Fixpoint iterate (fuel : nat) (clock : list Duration) (w : World) : option World :=
  match clock with
  | [] => Some w
  | e :: clock' =>
      match next (globals w) with
      | None => None
      | Some _ =>
          match iteration fuel e w with
          | Ok _ w1 => iterate fuel clock' w1
          | Halt _ _ => None
          end
      end
  end.

(** What the method calls recorded in a piece of trace found: the globals
    of each of them satisfy [K]. *)
Definition sees (K : Globals -> Prop) (ev : Event) : Prop :=
  match ev with
  | Called _ _ g _ => K g
  | Applied _ _ _ => True
  end.

(** [K] holds of the globals, and of the globals every method call found
    since the trace was [tr0]. *)
Definition kept (K : Globals -> Prop) (tr0 : list Event) (w : World) : Prop :=
  K (globals w) /\ exists evs, trace w = tr0 ++ evs /\ Forall (sees K) evs.

(** The step the options [os] leave, applied in order with nil errors, when
    it was [d] before: the one of the last [TimeStep] among them. *)
Definition last_step (os : list Option) (d : Duration) : Duration :=
  fold_left (fun d o => match o with TimeStep s => s | _ => d end) os d.

(** Lines 130-131 alone: the elapsed time [e] is stored in [delta] and
    recorded by [stats]. *)
Definition record (g : Globals) (e : Duration) : Globals := stats (set_delta e g).

(** The sum of a list of durations. *)
Definition total (ds : list Duration) : Z := fold_right Z.add 0 ds.

(** How many of the durations are overruns. *)
Definition overruns (ds : list Duration) : Z :=
  Z.of_nat (List.length (filter (fun d => xrunThreshold <? d) ds)).

(** The window is in order: less than a full interval is accumulated, and
    the overruns counted are frames counted. *)
Definition window_ok (i : Interval) : Prop :=
  0 <= time i < statsInterval /\ 0 <= interval_xruns i <= frames i.

(** ** Machine arithmetic *)

Lemma wrap_fits z : Int64.fits z -> Int64.wrap z = z.
Proof.
  unfold Int64.fits, Int64.min_int, Int64.max_int, Int64.wrap. intros H.
  rewrite Z.mod_small; lia.
Qed.

Lemma fits_wrap z : Int64.fits (Int64.wrap z).
Proof.
  unfold Int64.fits, Int64.min_int, Int64.max_int, Int64.wrap.
  pose proof (Z.mod_pos_bound (z + 2 ^ 63) (2 ^ 64)). lia.
Qed.

Lemma add_fits a b : Int64.fits (a + b) -> Int64.add a b = a + b.
Proof. apply wrap_fits. Qed.

Lemma sub_fits a b : Int64.fits (a - b) -> Int64.sub a b = a - b.
Proof. apply wrap_fits. Qed.

Lemma mul_fits a b : Int64.fits (a * b) -> Int64.mul a b = a * b.
Proof. apply wrap_fits. Qed.

(** ** Calls from outside only assign [next] and [options] *)

Lemma exec_frame g c :
  state (exec g c) = state g /\ step (exec g c) = step g /\
  delta (exec g c) = delta g /\ lag (exec g c) = lag g /\
  frametime (exec g c) = frametime g /\ xruns (exec g c) = xruns g /\
  interval (exec g c) = interval g.
Proof. destruct c; cbn; repeat split. Qed.

Lemma execs_frame cs : forall g,
  state (fold_left exec cs g) = state g /\ step (fold_left exec cs g) = step g /\
  delta (fold_left exec cs g) = delta g /\ lag (fold_left exec cs g) = lag g /\
  frametime (fold_left exec cs g) = frametime g /\ xruns (fold_left exec cs g) = xruns g /\
  interval (fold_left exec cs g) = interval g.
Proof.
  induction cs as [|c cs IH]; intros g; cbn [fold_left].
  - repeat split.
  - destruct (IH (exec g c)) as (A & B & C & D & E & F & G).
    destruct (exec_frame g c) as (A' & B' & C' & D' & E' & F' & G').
    repeat split; congruence.
Qed.

Lemma execs_state cs g : state (fold_left exec cs g) = state g.
Proof. apply execs_frame. Qed.

Lemma execs_step cs g : step (fold_left exec cs g) = step g.
Proof. apply execs_frame. Qed.

Lemma execs_lag cs g : lag (fold_left exec cs g) = lag g.
Proof. apply execs_frame. Qed.

Lemma execs_delta cs g : delta (fold_left exec cs g) = delta g.
Proof. apply execs_frame. Qed.

(** The last call that assigns [next] decides it. *)
Lemma execs_next_app cs1 c cs2 g :
  writes_next c = true ->
  forallb (fun c => negb (writes_next c)) cs2 = true ->
  next (fold_left exec (cs1 ++ c :: cs2) g) =
  match c with CallGoto l => l | _ => None end.
Proof.
  intros Hc H2. rewrite fold_left_app. cbn [fold_left].
  set (g1 := fold_left exec cs1 g). clearbody g1.
  assert (Hn : next (exec g1 c) = match c with CallGoto l => l | _ => None end)
    by (destruct c; [reflexivity | reflexivity | discriminate]).
  revert Hn. generalize (exec g1 c) as g2. clear g1.
  induction cs2 as [|c2 cs2 IH]; intros g2 Hn; cbn [fold_left]; [exact Hn|].
  cbn in H2. apply andb_true_iff in H2 as [Hc2 H2].
  apply IH; [exact H2|].
  destruct c2; cbn in Hc2; try discriminate. exact Hn.
Qed.

Lemma execs_next_quiet cs g :
  forallb (fun c => negb (writes_next c)) cs = true ->
  next (fold_left exec cs g) = next g.
Proof.
  revert g. induction cs as [|c cs IH]; intros g H; cbn [fold_left]; [reflexivity|].
  cbn in H. apply andb_true_iff in H as [Hc H].
  rewrite IH by exact H. destruct c; cbn in Hc; try discriminate. reflexivity.
Qed.

Lemma execs_app cs1 cs2 g :
  fold_left exec (cs1 ++ cs2) g = fold_left exec cs2 (fold_left exec cs1 g).
Proof. apply fold_left_app. Qed.

Lemma execs_next cs : forall g, next (fold_left exec cs g) = pending cs (next g).
Proof.
  unfold pending. induction cs as [|c cs IH]; intros g; cbn [fold_left]; [reflexivity|].
  rewrite IH. destruct c; reflexivity.
Qed.

Lemma pending_app cs1 cs2 n : pending (cs1 ++ cs2) n = pending cs2 (pending cs1 n).
Proof. apply fold_left_app. Qed.

Lemma issued_app evs1 evs2 : issued (evs1 ++ evs2) = issued evs1 ++ issued evs2.
Proof. unfold issued. apply flat_map_app. Qed.

(** ** Rules for weakest preconditions *)

Lemma wp_ret {A} (a : A) Q E w : Q a w -> wp (ret a) Q E w.
Proof. exact (fun H => H). Qed.

Lemma wp_halt {A} o (Q : A -> World -> Prop) E w : E o w -> wp (halt o) Q E w.
Proof. exact (fun H => H). Qed.

Lemma wp_get Q E w : Q (globals w) w -> wp get Q E w.
Proof. exact (fun H => H). Qed.

Lemma wp_modify f Q E w :
  Q tt (mkWorld (f (globals w)) (app w) (trace w)) -> wp (modify f) Q E w.
Proof. exact (fun H => H). Qed.

Lemma wp_bind {A B} (m : M A) (k : A -> M B) Q E w :
  wp m (fun a w' => wp (k a) Q E w') E w -> wp (bind m k) Q E w.
Proof. unfold wp, bind. destruct (m w); exact (fun H => H). Qed.

Lemma wp_mono {A} (m : M A) (Q Q' : A -> World -> Prop) (E E' : Outcome -> World -> Prop) w :
  wp m Q E w ->
  (forall a w', Q a w' -> Q' a w') ->
  (forall o w', E o w' -> E' o w') ->
  wp m Q' E' w.
Proof. unfold wp. destruct (m w); auto. Qed.

Lemma wp_call s m Q E w : Q tt (invoke s m w) -> wp (call (Some s) m) Q E w.
Proof. exact (fun H => H). Qed.

Lemma wp_ok {A} (m : M A) Q E w a w' : m w = Ok a w' -> wp m Q E w -> Q a w'.
Proof. unfold wp. intros ->. exact (fun H => H). Qed.

Lemma wp_halted {A} (m : M A) Q E w o w' : m w = Halt o w' -> wp m Q E w -> E o w'.
Proof. unfold wp. intros ->. exact (fun H => H). Qed.

(** ** A method call *)

Lemma invoke_globals s m w :
  globals (invoke s m w) = fold_left exec (fst (method s m (globals w) (app w))) (globals w).
Proof. unfold invoke. destruct (method s m (globals w) (app w)). reflexivity. Qed.

Lemma invoke_trace s m w :
  trace (invoke s m w) =
  trace w ++ [Called s m (globals w) (fst (method s m (globals w) (app w)))].
Proof. unfold invoke. destruct (method s m (globals w) (app w)). reflexivity. Qed.

Lemma invoke_state s m w : state (globals (invoke s m w)) = state (globals w).
Proof. rewrite invoke_globals. apply execs_state. Qed.

Lemma invoke_step s m w : step (globals (invoke s m w)) = step (globals w).
Proof. rewrite invoke_globals. apply execs_step. Qed.

Lemma invoke_lag s m w : lag (globals (invoke s m w)) = lag (globals w).
Proof. rewrite invoke_globals. apply execs_lag. Qed.

Lemma invoke_delta s m w : delta (globals (invoke s m w)) = delta (globals w).
Proof. rewrite invoke_globals. apply execs_delta. Qed.

(** ** An option being applied *)

Lemma applyCustom_globals n w :
  globals (snd (applyCustom n w)) =
  fold_left exec (fst (fst (custom n (globals w) (app w)))) (globals w).
Proof. unfold applyCustom. destruct (custom n (globals w) (app w)) as [[cs e] a]. reflexivity. Qed.

Lemma applyCustom_trace n w :
  trace (snd (applyCustom n w)) =
  trace w ++ [Applied (Custom n) (fst (fst (custom n (globals w) (app w)))) (fst (applyCustom n w))].
Proof. unfold applyCustom. destruct (custom n (globals w) (app w)) as [[cs e] a]. reflexivity. Qed.

(** Whatever it returns, an option that is not nil adds one [Applied] event
    to the trace and leaves [state] alone. *)
Lemma apply_ok o w err w' :
  apply o w = Ok err w' ->
  state (globals w') = state (globals w) /\
  lag (globals w') = lag (globals w) /\
  delta (globals w') = delta (globals w) /\
  exists cs, trace w' = trace w ++ [Applied o cs err] /\
             next (globals w') = pending cs (next (globals w)).
Proof.
  destruct o as [d|n|]; cbn [apply].
  - intros H. injection H as <- <-. cbn. repeat split. exists []. split; reflexivity.
  - destruct (applyCustom n w) as [e w1] eqn:Hc. intros H. injection H as <- <-.
    pose proof (applyCustom_globals n w) as Hg. pose proof (applyCustom_trace n w) as Ht.
    rewrite Hc in Hg, Ht. cbn [fst snd] in Hg, Ht. rewrite Hg.
    repeat split; try apply execs_frame.
    eexists. split; [exact Ht | apply execs_next].
  - discriminate.
Qed.

Lemma apply_halt o w out w' : apply o w = Halt out w' -> o = NilOption /\ out = Panicked /\ w' = w.
Proof.
  destruct o as [d|n|]; cbn [apply]; try discriminate.
  - destruct (applyCustom n w); discriminate.
  - intros H. injection H as <- <-. auto.
Qed.

(** ** Phases of an iteration *)

Lemma phase_refl s w : state (globals w) = Some s -> phase s w w.
Proof.
  intros H. split; [exact H|]. exists []. rewrite app_nil_r. repeat split. constructor.
Qed.

Lemma phase_trans s w w1 w2 : phase s w w1 -> phase s w1 w2 -> phase s w w2.
Proof.
  intros (_ & evs1 & T1 & F1 & N1) (S2 & evs2 & T2 & F2 & N2).
  split; [exact S2|]. exists (evs1 ++ evs2). repeat split.
  - rewrite T2, T1. symmetry. apply app_assoc.
  - apply Forall_app. split; assumption.
  - rewrite N2, N1, issued_app, pending_app. reflexivity.
Qed.

Lemma phase_invoke s m w :
  state (globals w) = Some s -> m = React \/ m = Update \/ m = Render ->
  phase s w (invoke s m w).
Proof.
  intros H Hm. split; [rewrite invoke_state; exact H|].
  eexists. split; [apply invoke_trace|]. split.
  - constructor; [|constructor]. cbn. auto.
  - cbn. rewrite app_nil_r, invoke_globals. apply execs_next.
Qed.

Lemma phase_apply s o w err w' :
  state (globals w) = Some s -> apply o w = Ok err w' -> phase s w w'.
Proof.
  intros H Ha. destruct (apply_ok _ _ _ _ Ha) as (Hs & _ & _ & cs & Ht & Hn).
  split; [congruence|]. eexists. split; [exact Ht|]. split.
  - constructor; [exact I | constructor].
  - cbn. rewrite app_nil_r. exact Hn.
Qed.

Lemma phase_modify s f w :
  state (globals w) = Some s ->
  (forall g, state (f g) = state g /\ next (f g) = next g) ->
  phase s w (mkWorld (f (globals w)) (app w) (trace w)).
Proof.
  intros H Hf. destruct (Hf (globals w)) as [Hs Hn].
  split; [cbn; congruence|]. exists []. cbn. rewrite app_nil_r. repeat split; auto.
Qed.

(** *** The options *)

Lemma applyOptions_phase s os : forall w,
  state (globals w) = Some s ->
  wp (applyOptions os)
     (fun _ w' => phase s w w')
     (fun o w' => phase s w w' /\ (o = Panicked \/ exists e, o = Returned (Some e))) w.
Proof.
  induction os as [|o os IH]; intros w H; cbn [applyOptions].
  - apply wp_ret, phase_refl, H.
  - apply wp_bind. unfold wp at 1. destruct (apply o w) as [err w1|out w1] eqn:Ha.
    + pose proof (phase_apply _ _ _ _ _ H Ha) as P1.
      destruct err as [e|].
      * apply wp_halt. split; [exact P1|]. right. exists e. reflexivity.
      * eapply wp_mono; [apply IH, P1| |]; cbn.
        -- intros _ w' P2. eapply phase_trans; eassumption.
        -- intros out w' [P2 Ho]. split; [eapply phase_trans; eassumption | exact Ho].
    + destruct (apply_halt _ _ _ _ Ha) as (_ & -> & ->).
      split; [apply phase_refl, H | left; reflexivity].
Qed.

(** The options that return nil are applied one after the other. *)
Lemma applyOptions_ok os : forall w w',
  applyOptions os w = Ok tt w' ->
  exists evs, trace w' = trace w ++ evs /\ Forall2 (applied None) os evs.
Proof.
  induction os as [|o os IH]; intros w w'; cbn [applyOptions].
  - intros H. injection H as <-. exists []. rewrite app_nil_r. split; constructor.
  - unfold bind. destruct (apply o w) as [err w1|out w1] eqn:Ha; [|discriminate].
    destruct err as [e|]; [discriminate|]. intros H.
    destruct (apply_ok _ _ _ _ Ha) as (_ & _ & _ & cs & Ht & _).
    destruct (IH _ _ H) as (evs & Ht' & F).
    exists (Applied o cs None :: evs). split.
    + rewrite Ht', Ht, <- app_assoc. reflexivity.
    + constructor; [exists cs; reflexivity | exact F].
Qed.

(** The first option that returns an error ends the range loop, and [Run]. *)
Lemma applyOptions_fail os1 o os2 e : forall w w1 w',
  applyOptions os1 w = Ok tt w1 ->
  apply o w1 = Ok (Some e) w' ->
  applyOptions (os1 ++ o :: os2) w = Halt (Returned (Some e)) w'.
Proof.
  induction os1 as [|o1 os1 IH]; intros w w1 w'; cbn [applyOptions List.app].
  - intros H Ha. injection H as <-. unfold bind. rewrite Ha. reflexivity.
  - unfold bind. destruct (apply o1 w) as [err w2|out w2]; [|discriminate].
    destruct err as [e1|]; [discriminate|]. intros H Ha. eapply IH; eassumption.
Qed.

(** *** The drain loop and the callbacks *)

Lemma drain_phase s fuel : forall w,
  state (globals w) = Some s ->
  wp (drain fuel)
     (fun _ w' => phase s w w')
     (fun o w' => phase s w w' /\ o = Unfinished) w.
Proof.
  induction fuel as [|fuel IH]; intros w H; cbn [drain];
    apply wp_bind, wp_get; destruct (lag (globals w) >=? step (globals w)).
  - apply wp_halt. split; [apply phase_refl, H | reflexivity].
  - apply wp_ret, phase_refl, H.
  - apply wp_bind, wp_modify, wp_bind, wp_get. cbn [globals state set_lag].
    set (w1 := mkWorld _ _ _).
    assert (P1 : phase s w w1) by (apply (phase_modify s _ w H); intros g; split; reflexivity).
    rewrite H. apply wp_bind, wp_call, wp_bind, wp_get.
    assert (P2 : phase s w1 (invoke s React w1)) by (apply phase_invoke; [exact H | auto]).
    rewrite invoke_state. change (state (globals w1)) with (state (globals w)). rewrite H.
    apply wp_bind, wp_call.
    assert (P3 : phase s (invoke s React w1) (invoke s Update (invoke s React w1)))
      by (apply phase_invoke; [apply P2 | auto]).
    assert (P : phase s w (invoke s Update (invoke s React w1)))
      by (eapply phase_trans; [exact P1 | eapply phase_trans; eassumption]).
    eapply wp_mono; [apply IH, P3| |]; cbn.
    + intros _ w' P'. eapply phase_trans; eassumption.
    + intros o w' [P' Ho]. split; [eapply phase_trans; eassumption | exact Ho].
  - apply wp_ret, phase_refl, H.
Qed.

Lemma callbacks_phase s fuel w :
  state (globals w) = Some s ->
  wp (callbacks fuel)
     (fun _ w' => phase s w w')
     (fun o w' => phase s w w' /\ o = Unfinished) w.
Proof.
  intros H. unfold callbacks. apply wp_bind, wp_get, wp_bind.
  assert (R : wp (if lag (globals w) <? step (globals w)
                  then call (state (globals w)) React else ret tt)
                 (fun _ w1 => phase s w w1)
                 (fun o w' => phase s w w' /\ o = Unfinished) w).
  { destruct (lag (globals w) <? step (globals w)).
    - rewrite H. apply wp_call, phase_invoke; [exact H | auto].
    - apply wp_ret, phase_refl, H. }
  eapply wp_mono; [exact R | | auto]. cbn. intros _ w1 P1.
  apply wp_bind. eapply wp_mono; [apply (drain_phase s), P1 | |]; cbn.
  - intros _ w2 P2. apply wp_bind, wp_get.
    destruct P2 as [S2 P2']. rewrite S2. apply wp_call.
    eapply phase_trans; [exact P1|]. eapply phase_trans; [exact (conj S2 P2')|].
    apply phase_invoke; [exact S2 | auto].
  - intros o w2 [P2 Ho]. split; [eapply phase_trans; eassumption | exact Ho].
Qed.

(** *** The end of an iteration *)

Lemma stats_frame g :
  state (stats g) = state g /\ next (stats g) = next g /\ step (stats g) = step g /\
  delta (stats g) = delta g /\ lag (stats g) = lag g /\ options (stats g) = options g.
Proof.
  unfold stats. cbn [frames time interval_xruns].
  destruct (delta g >? xrunThreshold); cbn [frames time interval_xruns];
    destruct (_ >=? statsInterval); cbn; repeat split.
Qed.

Lemma measure_frame e g :
  state (measure e g) = state g /\ next (measure e g) = next g /\
  step (measure e g) = step g /\ options (measure e g) = options g.
Proof.
  unfold measure.
  destruct (stats_frame (set_delta e g)) as (A & B & C & _ & _ & D).
  destruct (delta (stats (set_delta e g)) >? Int64.mul 4 (step (stats (set_delta e g))));
    cbn; rewrite ?A, ?B, ?C, ?D; repeat split.
Qed.

Lemma iteration_promote fuel e w :
  iteration fuel e w =
  (applyOptions (options (globals w)) ;; callbacks fuel ;; modify (measure e)) (promote w).
Proof. reflexivity. Qed.

Lemma iteration_phase s fuel e w :
  next (globals w) = Some s ->
  wp (iteration fuel e)
     (fun _ w' => phase s w w')
     (fun o w' => phase s w w' /\
                  (o = Unfinished \/ o = Panicked \/ exists err, o = Returned (Some err))) w.
Proof.
  intros H. unfold wp. rewrite iteration_promote. fold (wp
    (applyOptions (options (globals w)) ;; callbacks fuel ;; modify (measure e))
    (fun _ w' => phase s w w')
    (fun o w' => phase s w w' /\
                 (o = Unfinished \/ o = Panicked \/ exists err, o = Returned (Some err)))
    (promote w)).
  assert (S0 : state (globals (promote w)) = Some s) by exact H.
  assert (P0 : phase s w (promote w)).
  { split; [exact S0|]. exists []. cbn. rewrite app_nil_r. repeat split. constructor. }
  apply wp_bind. eapply wp_mono; [apply (applyOptions_phase s), S0 | |]; cbv beta.
  - intros _ w1 P1. apply wp_bind.
    eapply wp_mono; [apply (callbacks_phase s), P1 | |]; cbv beta.
    + intros _ w2 P2. apply wp_modify.
      eapply phase_trans; [exact P0|]. eapply phase_trans; [exact P1|].
      eapply phase_trans; [exact P2|].
      apply (phase_modify s (measure e) w2); [apply P2|].
      intros g. destruct (measure_frame e g) as (A & B & _). split; assumption.
    + intros o w2 [P2 ->]. split; [|auto].
      eapply phase_trans; [exact P0|]. eapply phase_trans; eassumption.
  - intros o w1 [P1 Ho]. split; [eapply phase_trans; [exact P0 | exact P1]|].
    destruct Ho as [->|[err ->]]; eauto.
Qed.

(** *** The loop *)

Lemma loop_cons fuel e clock w s :
  next (globals w) = Some s ->
  loop fuel (e :: clock) w = (iteration fuel e ;; loop fuel clock) w.
Proof. intros H. cbn [loop]. unfold bind at 1, get. rewrite H. reflexivity. Qed.

Lemma loop_exit fuel clock w s :
  next (globals w) = None -> state (globals w) = Some s ->
  loop fuel clock w = Ok None (finish s w).
Proof.
  intros Hn Hs. destruct clock; cbn [loop]; unfold bind at 1, get; rewrite Hn;
    unfold bind, call; rewrite Hs; reflexivity.
Qed.

Lemma loop_reaches fuel clock1 clock2 w w' :
  reaches fuel clock1 w w' -> loop fuel (clock1 ++ clock2) w = loop fuel clock2 w'.
Proof.
  induction 1 as [w|e clock w w1 w2 s Hn Hi _ IH]; [reflexivity|].
  cbn [List.app]. rewrite (loop_cons _ _ _ _ _ Hn). unfold bind. rewrite Hi. exact IH.
Qed.

Lemma iterate_reaches fuel clock : forall w w',
  iterate fuel clock w = Some w' -> reaches fuel clock w w'.
Proof.
  induction clock as [|e clock IH]; intros w w'; cbn [iterate].
  - intros H. injection H as <-. apply reaches_nil.
  - destruct (next (globals w)) as [s|] eqn:Hn; [|discriminate].
    destruct (iteration fuel e w) as [[] w1|o w1] eqn:Hi; [|discriminate].
    intros H. eapply reaches_cons; [exact Hn | exact Hi | apply IH, H].
Qed.

Lemma body_prime s fuel clock w :
  Running (globals w) = false ->
  body (Some s) fuel clock w = loop fuel clock (prime s w).
Proof. intros H. unfold body, bind at 1, get. rewrite H. reflexivity. Qed.

Lemma in_iteration_in_loop s evs : Forall (in_iteration s) evs -> Forall in_loop evs.
Proof. apply Forall_impl. intros ev H. exists s. exact H. Qed.

Lemma grows_refl T w : grows T w w.
Proof. exists []. rewrite app_nil_r. split; constructor. Qed.

Lemma grows_trans T w w1 w2 : grows T w w1 -> grows T w1 w2 -> grows T w w2.
Proof.
  intros (evs1 & T1 & F1) (evs2 & T2 & F2). exists (evs1 ++ evs2). split.
  - rewrite T2, T1. symmetry. apply app_assoc.
  - apply Forall_app. split; assumption.
Qed.

Lemma phase_grows s w w' : phase s w w' -> grows in_loop w w'.
Proof.
  intros (_ & evs & Ht & F & _). exists evs. split; [exact Ht|].
  eapply in_iteration_in_loop, F.
Qed.

(** Full iterations only add events of iterations, and leave [state] set. *)
Lemma reaches_grows fuel clock w w' :
  reaches fuel clock w w' ->
  grows in_loop w w' /\ (clock <> [] -> exists s, state (globals w') = Some s).
Proof.
  induction 1 as [w|e clock w w1 w2 s Hn Hi Hr [IH1 IH2]].
  - split; [apply grows_refl | congruence].
  - pose proof (wp_ok _ _ _ _ _ _ Hi (iteration_phase s fuel e w Hn)) as P. cbn in P.
    split; [eapply grows_trans; [eapply phase_grows, P | exact IH1]|].
    intros _. destruct clock as [|e' clock'].
    + inversion Hr; subst. exists s. apply P.
    + apply IH2. discriminate.
Qed.

Lemma prime_trace s w :
  exists g1 c1 g2 c2 g3 c3,
    trace (prime s w) =
    trace w ++ [Called s Enter g1 c1; Called s React g2 c2; Called s Update g3 c3].
Proof.
  unfold prime. cbn [trace]. rewrite !invoke_trace, <- !app_assoc. cbn [List.app].
  do 6 eexists. reflexivity.
Qed.

Lemma prime_next s w : next (globals (prime s w)) = Some s.
Proof. reflexivity. Qed.

Lemma prime_state s w : state (globals (prime s w)) = state (globals w).
Proof. unfold prime. cbn. rewrite !invoke_state. reflexivity. Qed.

(** However the loop ends, [state] is nil after a normal exit and only then. *)
Lemma loop_outcome fuel clock : forall w,
  wp (loop fuel clock)
     (fun err w' => err = None /\ state (globals w') = None)
     (fun o w' => forall err, o = Returned err ->
                  err <> None /\ exists s, state (globals w') = Some s) w.
Proof.
  assert (Exit : forall clock w, next (globals w) = None ->
    wp (loop fuel clock)
       (fun err w' => err = None /\ state (globals w') = None)
       (fun o w' => forall err, o = Returned err ->
                    err <> None /\ exists s, state (globals w') = Some s) w).
  { intros clock' w Hn. unfold wp. destruct (state (globals w)) as [s|] eqn:Hs.
    - rewrite (loop_exit _ _ _ _ Hn Hs). split; reflexivity.
    - destruct clock'; cbn [loop]; unfold bind at 1, get; rewrite Hn;
        unfold bind, call; rewrite Hs; intros err; discriminate. }
  induction clock as [|e clock IH]; intros w;
    destruct (next (globals w)) as [s|] eqn:Hn; try (apply Exit; exact Hn).
  - unfold wp. cbn [loop]. unfold bind, get. rewrite Hn. cbn. intros err; discriminate.
  - unfold wp. rewrite (loop_cons _ _ _ _ _ Hn).
    fold (wp (iteration fuel e ;; loop fuel clock)
       (fun err w' => err = None /\ state (globals w') = None)
       (fun o w' => forall err, o = Returned err ->
                    err <> None /\ exists s, state (globals w') = Some s) w).
    apply wp_bind. eapply wp_mono; [apply (iteration_phase s), Hn | |]; cbn.
    + intros _ w1 _. apply IH.
    + intros o w1 [P Ho] err ->. destruct Ho as [Ho|[Ho|[e' Ho]]]; try discriminate.
      injection Ho as ->. split; [discriminate|]. exists s. apply P.
Qed.

(** ** The reentrancy guard *)

(** C2. While the loop runs ([state] is not nil), [Run], whatever state it
    is given, returns the "already running" error and changes nothing: the
    world it returns is the world it found, globals (current and next
    state, step, delta, lag, statistics, options), application data and
    trace (no method was called). *)
Theorem Run_already_running (start : State) (fuel : nat) (clock : list Duration) (w : World) :
  Running (globals w) = true ->
  Run start fuel clock w = (Returned (Some already_running), w).
Proof.
  intros H. unfold Run, body, bind, get. rewrite H. reflexivity.
Qed.

(** ** A failing option *)

(** C3. Take any run started from an idle controller that has reached the
    top of an iteration, in [w], with [next] holding [s], and let the
    option queue be [os1 ++ o :: os2] where the options of [os1], applied
    in order after [state = next], return nil and [o] then returns [err].
    Then [Run] returns exactly [err], in the world [w'] that [o] left: the
    trace of the iteration consists of the options of [os1] and of [o]
    being applied, so no option of [os2] is applied and no method is
    called, neither React, Update, Render nor Leave; [state] still holds
    [s]. *)
Theorem Run_option_error (s0 : StateId) (fuel : nat) (clock1 : list Duration)
        (e : Duration) (clock2 : list Duration) (w0 w w1 w' : World)
        (s : StateId) (os1 : list Option) (o : Option) (os2 : list Option) (err : error) :
  Running (globals w0) = false ->
  reaches fuel clock1 (prime s0 w0) w ->
  next (globals w) = Some s ->
  options (globals w) = os1 ++ o :: os2 ->
  applyOptions os1 (promote w) = Ok tt w1 ->
  apply o w1 = Ok (Some err) w' ->
  Run (Some s0) fuel (clock1 ++ e :: clock2) w0 = (Returned (Some err), w') /\
  (exists evs ev, trace w' = trace w ++ evs ++ [ev] /\
                  Forall2 (applied None) os1 evs /\ applied (Some err) o ev) /\
  state (globals w') = Some s.
Proof.
  intros Hidle Hreach Hn Hos H1 Ho.
  pose proof (applyOptions_fail os1 o os2 err _ _ _ H1 Ho) as Hfail.
  split; [|split].
  - unfold Run. rewrite (body_prime _ _ _ _ Hidle), (loop_reaches _ _ _ _ _ Hreach).
    rewrite (loop_cons _ _ _ _ _ Hn). unfold bind at 1.
    rewrite iteration_promote, Hos. unfold bind at 1. rewrite Hfail. reflexivity.
  - destruct (applyOptions_ok _ _ _ H1) as (evs & Ht & F).
    destruct (apply_ok _ _ _ _ Ho) as (_ & _ & _ & cs & Ht' & _).
    exists evs, (Applied o cs (Some err)). split; [|split].
    + rewrite Ht', Ht. cbn [promote trace]. symmetry. apply app_assoc.
    + exact F.
    + exists cs. reflexivity.
  - destruct (apply_ok _ _ _ _ Ho) as (Hs & _).
    assert (S0 : state (globals (promote w)) = Some s) by exact Hn.
    pose proof (wp_ok _ _ _ _ _ _ H1 (applyOptions_phase s os1 _ S0)) as P.
    rewrite Hs. apply P.
Qed.

(** ** The end of a run *)

Lemma count_method_app m evs1 evs2 :
  count_method m (evs1 ++ evs2) = (count_method m evs1 + count_method m evs2)%nat.
Proof. unfold count_method. rewrite filter_app. apply length_app. Qed.

Lemma count_Leave_in_loop evs : Forall in_loop evs -> count_method Leave evs = 0%nat.
Proof.
  unfold count_method. induction 1 as [|ev evs [s H] _ IH]; [reflexivity|].
  cbn [filter]. destruct ev as [s' m g cs|]; cbn [is_call]; [|exact IH].
  destruct H as (_ & _ & [->|[->| ->]]); exact IH.
Qed.

(** C9. Take any run started from an idle controller and let it exit
    naturally: after some full iterations the loop is at its top, in [w],
    and [next] is nil.  Then [Run] returns nil; [state] held some [s], and
    the world [Run] leaves is [finish s w]: Leave was called on [s], while
    [state] still held it, as the last event of the run; it is the only
    Leave call of the run; and [state] is nil afterwards, so [Running]
    reports false. *)
Theorem Run_natural_exit (s0 : StateId) (fuel : nat) (clock1 clock2 : list Duration)
        (w0 w : World) :
  Running (globals w0) = false ->
  reaches fuel clock1 (prime s0 w0) w ->
  next (globals w) = None ->
  exists s evs g cs,
    state (globals w) = Some s /\
    Run (Some s0) fuel (clock1 ++ clock2) w0 = (Returned None, finish s w) /\
    trace (finish s w) = trace w0 ++ evs ++ [Called s Leave g cs] /\
    state g = Some s /\
    count_method Leave (evs ++ [Called s Leave g cs]) = 1%nat /\
    state (globals (finish s w)) = None /\
    Running (globals (finish s w)) = false.
Proof.
  intros Hidle Hreach Hn.
  destruct (reaches_grows _ _ _ _ Hreach) as [(evs & Ht & F) Hs].
  destruct Hs as [s Hs].
  { intros ->. inversion Hreach; subst. rewrite prime_next in Hn. discriminate. }
  destruct (prime_trace s0 w0) as (g1 & c1 & g2 & c2 & g3 & c3 & Hp).
  exists s, ([Called s0 Enter g1 c1; Called s0 React g2 c2; Called s0 Update g3 c3] ++ evs),
    (globals w), (fst (method s Leave (globals w) (app w))).
  split; [exact Hs|]. split; [|split; [|split; [|split; [|split]]]].
  - unfold Run. rewrite (body_prime _ _ _ _ Hidle), (loop_reaches _ _ _ _ _ Hreach).
    rewrite (loop_exit _ _ _ _ Hn Hs). reflexivity.
  - unfold finish. cbn [trace]. rewrite invoke_trace, Ht, Hp, <- !app_assoc. reflexivity.
  - exact Hs.
  - rewrite !count_method_app, (count_Leave_in_loop _ F). reflexivity.
  - reflexivity.
  - reflexivity.
Qed.

(** Calls from outside never assign [state]. *)
Lemma Running_execs cs g : Running (fold_left exec cs g) = Running g.
Proof. unfold Running. rewrite execs_state. reflexivity. Qed.


(** ** React, Update and Render in one iteration *)

Lemma call_on_invoke s m w :
  state (globals w) = Some s ->
  exists ev, trace (invoke s m w) = trace w ++ [ev] /\ call_on s m ev.
Proof.
  intros H. eexists. split; [apply invoke_trace|]. do 2 eexists. split; [reflexivity | exact H].
Qed.

(** The rounds of the drain loop: [k] times React then Update. *)
Lemma drain_shape s fuel : forall w w',
  state (globals w) = Some s ->
  drain fuel w = Ok tt w' ->
  exists k evs,
    trace w' = trace w ++ evs /\ Forall2 (call_on s) (pairs k) evs /\
    (lag (globals w) < step (globals w) -> k = 0%nat) /\
    (step (globals w) <= lag (globals w) -> (0 < k)%nat) /\
    lag (globals w') < step (globals w').
Proof.
  induction fuel as [|fuel IH]; intros w w' H; cbn [drain]; unfold bind at 1, get;
    destruct (lag (globals w) >=? step (globals w)) eqn:Hge; try discriminate.
  - intros E. injection E as <-. exists 0%nat, []. rewrite app_nil_r.
    repeat split; [constructor | lia | lia].
  - unfold bind at 1, modify. unfold bind at 1, get. cbn [globals state set_lag].
    set (w1 := mkWorld _ _ _). rewrite H. unfold bind at 1, call.
    unfold bind at 1, get. rewrite invoke_state. change (state (globals w1)) with (state (globals w)).
    rewrite H. unfold bind at 1. intros E.
    destruct (call_on_invoke s React w1 H) as (ev1 & T1 & C1).
    assert (H2 : state (globals (invoke s React w1)) = Some s) by (rewrite invoke_state; exact H).
    destruct (call_on_invoke s Update _ H2) as (ev2 & T2 & C2).
    assert (H3 : state (globals (invoke s Update (invoke s React w1))) = Some s)
      by (rewrite invoke_state; exact H2).
    destruct (IH _ _ H3 E) as (k & evs & T & F & _ & _ & Hlt).
    exists (S k), (ev1 :: ev2 :: evs). split; [|split; [|split; [|split]]].
    + rewrite T, T2, T1, <- !app_assoc. reflexivity.
    + cbn [pairs]. constructor; [exact C1|]. constructor; [exact C2 | exact F].
    + lia.
    + lia.
    + exact Hlt.
  - intros E. injection E as <-. exists 0%nat, []. rewrite app_nil_r.
    repeat split; [constructor | lia | lia].
Qed.

(** With a positive step, the drain loop ends within [lag / step] rounds. *)
Lemma drain_terminates s fuel : forall w,
  state (globals w) = Some s ->
  0 < step (globals w) ->
  Int64.fits (lag (globals w)) ->
  lag (globals w) < Z.of_nat fuel * step (globals w) ->
  exists w', drain fuel w = Ok tt w'.
Proof.
  induction fuel as [|fuel IH]; intros w H Hstep Hfit Hfuel; cbn [drain]; unfold bind at 1, get;
    destruct (lag (globals w) >=? step (globals w)) eqn:Hge;
    try (eexists; reflexivity); try lia.
  unfold bind at 1, modify. unfold bind at 1, get. cbn [globals state set_lag].
  set (w1 := mkWorld _ _ _). rewrite H. unfold bind at 1, call.
  unfold bind at 1, get. rewrite invoke_state. change (state (globals w1)) with (state (globals w)).
  rewrite H. unfold bind at 1.
  assert (Hsub : Int64.sub (lag (globals w)) (step (globals w)) = lag (globals w) - step (globals w)).
  { apply sub_fits. unfold Int64.fits, Int64.min_int, Int64.max_int in *. lia. }
  apply IH.
  - rewrite !invoke_state. exact H.
  - rewrite !invoke_step. exact Hstep.
  - rewrite !invoke_lag. subst w1. cbn [globals lag set_lag]. rewrite Hsub.
    apply Z.geb_le in Hge. unfold Int64.fits, Int64.min_int, Int64.max_int in *. lia.
  - rewrite !invoke_lag, !invoke_step. subst w1. cbn [globals lag step set_lag]. rewrite Hsub. lia.
Qed.

Lemma count_call_on s m' ms evs :
  Forall2 (call_on s) ms evs ->
  count_method m' evs = List.length (filter (Method_eqb m') ms).
Proof.
  unfold count_method. induction 1 as [|m1 ev ms evs (g & cs & -> & _) _ IH];
    [reflexivity|].
  cbn [filter is_call]. destruct (Method_eqb m' m1); cbn [List.length]; rewrite IH; reflexivity.
Qed.

Lemma filter_pairs m k :
  List.length (filter (Method_eqb m) (pairs k)) =
  match m with React | Update => k | _ => 0%nat end.
Proof.
  induction k as [|k IH]; [destruct m; reflexivity|].
  cbn [pairs filter]. destruct m; cbn [Method_eqb List.length]; rewrite IH; reflexivity.
Qed.


(** ** Goto and Stop *)

Lemma pending_last cs1 c cs2 n :
  writes_next c = true ->
  forallb (fun c => negb (writes_next c)) cs2 = true ->
  pending (cs1 ++ c :: cs2) n = match c with CallGoto l => l | _ => None end.
Proof.
  intros Hc H2. rewrite pending_app. generalize (pending cs1 n) as n1. intros n1.
  unfold pending. cbn [fold_left].
  assert (Hn : match c with CallGoto l => l | CallStop => None | CallConfigure _ => n1 end
               = match c with CallGoto l => l | _ => None end)
    by (destruct c; [reflexivity | reflexivity | discriminate]).
  rewrite Hn. generalize (match c with CallGoto l => l | _ => None end) as n2.
  induction cs2 as [|c2 cs2 IH]; intros n2; cbn [fold_left]; [reflexivity|].
  cbn in H2. apply andb_true_iff in H2 as [Hc2 H2].
  destruct c2; cbn in Hc2; try discriminate. apply IH, H2.
Qed.

(** C7. Take an iteration that starts with [next] holding [s] and runs to
    its end.  Every method call of the iteration is made on [s] while
    [state] holds [s], and [state] still holds [s] when the iteration ends:
    no [Goto] or [Stop] takes effect while the iteration runs.  If the
    last call of the iteration that assigns [next] is [Goto l], then [next]
    holds [l] when the iteration ends, [l] is what line 105 assigns to
    [state] at the top of the next iteration, and when [l] is a state [s']
    the next iteration runs on [s'].  If it is [Stop], [next] is nil and the
    loop exits at once: Leave is called on [s] and [Run] returns nil. *)
Theorem Goto_last_write_wins (s : StateId) (fuel : nat) (e : Duration) (w w1 : World) :
  next (globals w) = Some s ->
  iteration fuel e w = Ok tt w1 ->
  exists evs,
    trace w1 = trace w ++ evs /\
    Forall (in_iteration s) evs /\
    state (globals w1) = Some s /\
    (forall cs1 l cs2,
       issued evs = cs1 ++ CallGoto l :: cs2 ->
       forallb (fun c => negb (writes_next c)) cs2 = true ->
       next (globals w1) = l /\
       state (globals (promote w1)) = l /\
       forall s' e2, l = Some s' ->
         match iteration fuel e2 w1 with
         | Ok _ w2 | Halt _ w2 => phase s' w1 w2
         end) /\
    (forall cs1 cs2,
       issued evs = cs1 ++ CallStop :: cs2 ->
       forallb (fun c => negb (writes_next c)) cs2 = true ->
       next (globals w1) = None /\
       forall clock, loop fuel clock w1 = Ok None (finish s w1)).
Proof.
  intros Hn Hi.
  pose proof (wp_ok _ _ _ _ _ _ Hi (iteration_phase s fuel e w Hn)) as P. cbn beta in P.
  destruct P as (Hs & evs & Ht & F & Hnext).
  exists evs. split; [exact Ht|]. split; [exact F|]. split; [exact Hs|]. split.
  - intros cs1 l cs2 Hissued Hquiet.
    assert (Hl : next (globals w1) = l)
      by (rewrite Hnext, Hissued; apply (pending_last cs1 (CallGoto l) cs2); auto).
    split; [exact Hl|]. split; [exact Hl|].
    intros s' e2 ->. pose proof (iteration_phase s' fuel e2 w1 Hl) as P'. unfold wp in P'.
    destruct (iteration fuel e2 w1); [exact P' | apply P'].
  - intros cs1 cs2 Hissued Hquiet.
    assert (Hl : next (globals w1) = None)
      by (rewrite Hnext, Hissued; apply (pending_last cs1 CallStop cs2); auto).
    split; [exact Hl|]. intros clock. apply loop_exit; assumption.
Qed.

(** ** The timing model *)

Lemma measure_delta_lag e g :
  delta (measure e g) = Z.min e (Int64.mul 4 (step g)) /\
  lag (measure e g) = Int64.add (lag g) (Z.min e (Int64.mul 4 (step g))).
Proof.
  unfold measure.
  destruct (stats_frame (set_delta e g)) as (_ & _ & Hs & Hd & Hl & _).
  cbn [set_delta step delta lag] in Hs, Hd, Hl. rewrite Hs, Hd.
  destruct (e >? Int64.mul 4 (step g)) eqn:Hgt.
  - apply Z.gtb_lt in Hgt. rewrite Z.min_r by lia. cbn [set_lag set_delta delta lag].
    rewrite Hl. split; reflexivity.
  - rewrite Z.gtb_ltb in Hgt. apply Z.ltb_ge in Hgt. rewrite Z.min_l by lia.
    cbn [set_lag delta lag]. rewrite Hd, Hl. split; reflexivity.
Qed.

(** C5. Whatever the elapsed time [e] measured at the end of an iteration,
    the delta that lines 130-136 store, which is what [Delta] returns, is
    the smaller of [e] and [4 * step] and so at most [4 * step], and [lag]
    is increased by that delta; [step] is not changed.  This holds for the
    machine operations as they are, and for the exact product and sum
    whenever these fit in an [int64]. *)
Theorem measure_clamps_delta (e : Duration) (g : Globals) :
  let g' := measure e g in
  Delta g' = Z.min e (Int64.mul 4 (Step g)) /\
  Delta g' <= Int64.mul 4 (Step g) /\
  Lag g' = Int64.add (Lag g) (Delta g') /\
  Step g' = Step g /\
  (Int64.fits (4 * Step g) ->
   Delta g' = Z.min e (4 * Step g) /\
   Delta g' <= 4 * Step g /\
   (Int64.fits (Lag g + Z.min e (4 * Step g)) ->
    Lag g' = Lag g + Z.min e (4 * Step g))).
Proof.
  intros g'. unfold Delta, Lag, Step. subst g'.
  destruct (measure_delta_lag e g) as [Hd Hl].
  destruct (measure_frame e g) as (_ & _ & Hs & _).
  rewrite Hd, Hl, Hs. repeat split.
  - lia.
  - rewrite (mul_fits _ _ H). reflexivity.
  - rewrite (mul_fits _ _ H). lia.
  - intros H'. rewrite (mul_fits _ _ H). apply add_fits, H'.
Qed.

(** ** The statistics window *)

(** One call of [stats], with the machine operations as they are. *)
Lemma stats_wrapping g :
  let f := Int64.add (frames (interval g)) 1 in
  let t := Int64.add (time (interval g)) (delta g) in
  let x := if delta g >? xrunThreshold
           then Int64.add (interval_xruns (interval g)) 1
           else interval_xruns (interval g) in
  stats g =
  if t >=? statsInterval
  then set_interval (mkInterval 0 0 0)
         (set_xruns x (set_frametime (PrimFloat.div (float64_of_int t) (float64_of_int f)) g))
  else set_interval (mkInterval f t x) g.
Proof.
  unfold stats. cbn [frames time interval_xruns].
  destruct (delta g >? xrunThreshold); reflexivity.
Qed.

(** C8. One call of [stats] with a recorded [delta], when the sums fit in
    the integer types.  Let [f] be the frame count plus 1, [t] the
    accumulated time plus [delta] and [x] the overrun count, plus 1 exactly
    when [delta] is above 17 ms.  If [t] is 250 ms or more, [frametime]
    becomes the float quotient of [t] by [f], [xruns] becomes [x] and the
    three fields of the window become 0; otherwise the window holds [f],
    [t] and [x] and the published values are unchanged. *)
Theorem stats_window (g : Globals) :
  let f := frames (interval g) + 1 in
  let t := time (interval g) + delta g in
  let x := interval_xruns (interval g) + (if 17 * Millisecond <? delta g then 1 else 0) in
  Int64.fits f -> Int64.fits t -> Int64.fits x ->
  (250 * Millisecond <= t ->
   frametime (stats g) = PrimFloat.div (float64_of_int t) (float64_of_int f) /\
   xruns (stats g) = x /\
   interval (stats g) = mkInterval 0 0 0) /\
  (t < 250 * Millisecond ->
   interval (stats g) = mkInterval f t x /\
   frametime (stats g) = frametime g /\
   xruns (stats g) = xruns g).
Proof.
  intros f t x Hf Ht Hx. rewrite stats_wrapping.
  assert (Ef : Int64.add (frames (interval g)) 1 = f) by (apply add_fits, Hf).
  assert (Et : Int64.add (time (interval g)) (delta g) = t) by (apply add_fits, Ht).
  assert (Ex : (if delta g >? xrunThreshold
                then Int64.add (interval_xruns (interval g)) 1
                else interval_xruns (interval g)) = x).
  { subst x. rewrite Z.gtb_ltb. change xrunThreshold with (17 * Millisecond).
    destruct (17 * Millisecond <? delta g).
    - apply add_fits, Hx.
    - lia. }
  rewrite Ef, Et, Ex. change statsInterval with (250 * Millisecond).
  destruct (t >=? 250 * Millisecond) eqn:Hge.
  - apply Z.geb_le in Hge. split; [intros _; repeat split | lia].
  - rewrite Z.geb_leb in Hge. apply Z.leb_gt in Hge.
    split; [lia | intros _; repeat split].
Qed.

(** [Stats] returns its own result variable, not the package's [frametime]. *)
Lemma Stats_frametime_zero g : Stats g = (PrimFloat.zero, xruns g).
Proof. reflexivity. Qed.

(** ** The lag stays below the step *)

Lemma exec_config g c : good_call c -> config_ok g -> config_ok (exec g c).
Proof.
  destruct c; cbn; intros Hc [Hs Ho]; split; auto. apply Forall_app; auto.
Qed.

Lemma execs_config cs : forall g,
  Forall good_call cs -> config_ok g -> config_ok (fold_left exec cs g).
Proof.
  induction cs as [|c cs IH]; intros g Hcs Hg; cbn [fold_left]; [exact Hg|].
  inversion Hcs; subst. apply IH; [assumption | apply exec_config; assumption].
Qed.

Lemma execs_timing cs g :
  Forall good_call cs -> timing_ok g -> timing_ok (fold_left exec cs g).
Proof.
  intros Hcs [Hc Hl]. split; [apply execs_config; assumption | rewrite execs_lag; exact Hl].
Qed.

Lemma in_order_modify tr0 f w :
  in_order tr0 w -> timing_ok (f (globals w)) ->
  in_order tr0 (mkWorld (f (globals w)) (app w) (trace w)).
Proof. intros [_ Ht] Hf. split; assumption. Qed.

Lemma measure_timing e g :
  timing_ok g -> lag g < step g -> 0 <= e -> timing_ok (measure e g).
Proof.
  intros [[Hs Ho] Hl] Hlt He.
  destruct (measure_delta_lag e g) as [_ Hlag].
  destruct (measure_frame e g) as (_ & _ & Hstep & Hopt).
  unfold timing_ok, config_ok. rewrite Hstep, Hopt, Hlag.
  unfold max_step in *.
  rewrite mul_fits by (unfold Int64.fits, Int64.min_int, Int64.max_int; lia).
  rewrite add_fits by (unfold Int64.fits, Int64.min_int, Int64.max_int; lia).
  repeat split; try assumption; lia.
Qed.

Section Timing.

(** The application only configures options that keep the step positive and
    at most [max_step]. *)
Hypothesis method_good : forall s m g a, Forall good_call (fst (method s m g a)).
Hypothesis custom_good : forall n g a, Forall good_call (fst (fst (custom n g a))).

Lemma invoke_config s m w : config_ok (globals w) -> config_ok (globals (invoke s m w)).
Proof. intros H. rewrite invoke_globals. apply execs_config; [apply method_good | exact H]. Qed.

Lemma invoke_in_order tr0 s m w :
  in_order tr0 w ->
  (m = Render -> lag (globals w) < step (globals w)) ->
  in_order tr0 (invoke s m w).
Proof.
  intros [Ht (evs & Htr & F)] Hm. split.
  - rewrite invoke_globals. apply execs_timing; [apply method_good | exact Ht].
  - eexists. split; [rewrite invoke_trace, Htr, <- app_assoc; reflexivity|].
    apply Forall_app. split; [exact F|]. constructor; [|constructor].
    destruct m; cbn; trivial. unfold Lag, Step. split; [apply Ht | apply Hm; reflexivity].
Qed.

Lemma call_in_order tr0 st m w :
  in_order tr0 w ->
  (m = Render -> lag (globals w) < step (globals w)) ->
  wp (call st m)
     (fun _ w' => in_order tr0 w' /\ lag (globals w') = lag (globals w) /\
                  step (globals w') = step (globals w))
     (fun _ w' => in_order tr0 w') w.
Proof.
  intros H Hm. destruct st as [s|]; [|exact H]. apply wp_call.
  split; [apply invoke_in_order; assumption|]. rewrite invoke_lag, invoke_step. auto.
Qed.

Lemma apply_in_order tr0 o w :
  good_option o -> in_order tr0 w ->
  wp (apply o) (fun _ w' => in_order tr0 w') (fun _ w' => in_order tr0 w') w.
Proof.
  intros Ho [[[Hs Hos] Hl] (evs & Htr & F)]. unfold wp.
  assert (G : forall o' cs err, exists evs', trace w ++ [Applied o' cs err] = tr0 ++ evs' /\
                                            Forall render_ok evs').
  { intros o' cs err. exists (evs ++ [Applied o' cs err]). split.
    - rewrite Htr, <- app_assoc. reflexivity.
    - apply Forall_app. split; [exact F|]. constructor; [exact I | constructor]. }
  destruct o as [d|n|]; cbn [apply].
  - split; [|apply G]. unfold timing_ok, config_ok.
    cbn [applyTimeStep globals set_step step options lag].
    split; [split; [exact Ho | exact Hos] | exact Hl].
  - destruct (applyCustom n w) as [err w1] eqn:Hc.
    pose proof (applyCustom_globals n w) as Hg. pose proof (applyCustom_trace n w) as Ht.
    rewrite Hc in Hg, Ht. cbn [fst snd] in Hg, Ht. split.
    + rewrite Hg. apply execs_timing; [apply custom_good|].
      split; [split; [exact Hs | exact Hos] | exact Hl].
    + rewrite Ht. apply G.
  - split; [split; [split; [exact Hs | exact Hos] | exact Hl] | exists evs; auto].
Qed.

Lemma applyOptions_in_order tr0 os : forall w,
  Forall good_option os -> in_order tr0 w ->
  wp (applyOptions os) (fun _ w' => in_order tr0 w') (fun _ w' => in_order tr0 w') w.
Proof.
  induction os as [|o os IH]; intros w Hos H; cbn [applyOptions].
  - apply wp_ret, H.
  - inversion Hos; subst. apply wp_bind.
    eapply wp_mono; [apply apply_in_order; eassumption | | auto]. cbv beta.
    intros [e|] w1 H1; [apply wp_halt, H1 | apply IH; assumption].
Qed.

Lemma drain_in_order tr0 fuel : forall w,
  in_order tr0 w ->
  wp (drain fuel)
     (fun _ w' => in_order tr0 w' /\ lag (globals w') < step (globals w'))
     (fun _ w' => in_order tr0 w') w.
Proof.
  induction fuel as [|fuel IH]; intros w H; cbn [drain];
    apply wp_bind, wp_get; destruct (lag (globals w) >=? step (globals w)) eqn:Hge;
    try (apply wp_halt, H);
    try (apply wp_ret; split; [exact H|]; rewrite Z.geb_leb in Hge; apply Z.leb_gt, Hge).
  apply Z.geb_le in Hge.
  apply wp_bind, wp_modify, wp_bind, wp_get. set (w1 := mkWorld _ _ _).
  assert (H1 : in_order tr0 w1).
  { apply (in_order_modify tr0 (fun g => set_lag (Int64.sub (lag g) (step g)) g) w H).
    destruct H as [[[Hs Ho] Hl] _].
    split; [split; assumption|]. cbn [set_lag lag]. unfold max_step in *.
    rewrite sub_fits by (unfold Int64.fits, Int64.min_int, Int64.max_int; lia). lia. }
  apply wp_bind. eapply wp_mono; [apply call_in_order; [exact H1 | discriminate] | | auto].
  cbv beta. intros _ w2 (H2 & _ & _).
  apply wp_bind, wp_get, wp_bind.
  eapply wp_mono; [apply call_in_order; [exact H2 | discriminate] | | auto].
  cbv beta. intros _ w3 (H3 & _ & _). apply IH, H3.
Qed.

Lemma callbacks_in_order tr0 fuel w :
  in_order tr0 w ->
  wp (callbacks fuel)
     (fun _ w' => in_order tr0 w' /\ lag (globals w') < step (globals w'))
     (fun _ w' => in_order tr0 w') w.
Proof.
  intros H. unfold callbacks. apply wp_bind, wp_get, wp_bind.
  assert (R : wp (if lag (globals w) <? step (globals w)
                  then call (state (globals w)) React else ret tt)
                 (fun _ w1 => in_order tr0 w1) (fun _ w1 => in_order tr0 w1) w).
  { destruct (lag (globals w) <? step (globals w)); [|apply wp_ret, H].
    eapply wp_mono; [apply call_in_order; [exact H | discriminate] | | auto].
    cbv beta. intros _ w1 H1. apply H1. }
  eapply wp_mono; [exact R | | auto]. cbv beta. intros _ w1 H1.
  apply wp_bind. eapply wp_mono; [apply drain_in_order, H1 | | auto].
  cbv beta. intros _ w2 [H2 Hlt]. apply wp_bind, wp_get.
  eapply wp_mono; [apply call_in_order; [exact H2 | intros _; exact Hlt] | | auto].
  cbv beta. intros _ w3 (H3 & Hl & Hs). split; [exact H3 | rewrite Hl, Hs; exact Hlt].
Qed.

Lemma iteration_in_order tr0 fuel e w :
  0 <= e -> in_order tr0 w ->
  wp (iteration fuel e) (fun _ w' => in_order tr0 w') (fun _ w' => in_order tr0 w') w.
Proof.
  intros He H. unfold iteration. apply wp_bind, wp_modify, wp_bind, wp_get.
  cbn [globals]. set (w0 := mkWorld _ _ _).
  assert (H0 : in_order tr0 w0) by (apply (in_order_modify tr0 _ w H); apply H).
  apply wp_bind.
  eapply wp_mono; [apply applyOptions_in_order; [apply H | exact H0] | | auto].
  cbv beta. intros _ w1 H1. apply wp_bind.
  eapply wp_mono; [apply callbacks_in_order, H1 | | auto].
  cbv beta. intros _ w2 [H2 Hlt]. apply wp_modify.
  apply (in_order_modify tr0 (measure e) w2 H2), measure_timing; [apply H2 | exact Hlt | exact He].
Qed.

Lemma loop_in_order tr0 fuel clock : forall w,
  Forall (fun e => 0 <= e) clock -> in_order tr0 w ->
  wp (loop fuel clock) (fun _ w' => in_order tr0 w') (fun _ w' => in_order tr0 w') w.
Proof.
  assert (Exit : forall w, in_order tr0 w ->
    wp (call (state (globals w)) Leave ;; modify (set_state None) ;; ret (@None error))
       (fun _ w' => in_order tr0 w') (fun _ w' => in_order tr0 w') w).
  { intros w H. apply wp_bind.
    eapply wp_mono; [apply call_in_order; [exact H | discriminate] | | auto].
    cbv beta. intros _ w1 (H1 & _). apply wp_bind, wp_modify, wp_ret.
    apply (in_order_modify tr0 (set_state None) w1 H1), H1. }
  induction clock as [|e clock IH]; intros w Hc H; cbn [loop]; apply wp_bind, wp_get;
    destruct (next (globals w)); try (apply Exit, H).
  - apply wp_halt, H.
  - inversion Hc; subst. apply wp_bind.
    eapply wp_mono; [apply iteration_in_order; eassumption | | auto].
    cbv beta. intros _ w1 H1. apply IH; assumption.
Qed.

Lemma Run_in_order start fuel clock w :
  config_ok (globals w) ->
  Forall (fun e => 0 <= e) clock ->
  exists evs, trace (snd (Run start fuel clock w)) = trace w ++ evs /\ Forall render_ok evs.
Proof.
  intros Hc Hclock.
  assert (Z0 : exists evs, trace w = trace w ++ evs /\ Forall render_ok evs)
    by (exists []; rewrite app_nil_r; split; constructor).
  unfold Run, body, bind at 1, get. destruct (Running (globals w)); [exact Z0|].
  destruct start as [s|]; [|exact Z0]. unfold bind at 1, call. unfold bind at 1.
  unfold bind at 1. unfold bind at 1, modify. unfold bind at 1. cbn [globals app trace].
  set (w3 := invoke s Update (invoke s React (invoke s Enter w))).
  set (w4 := mkWorld _ _ _).
  assert (H4 : in_order (trace w) w4).
  { split.
    - split; [|cbn; unfold max_step; lia].
      assert (C3 : config_ok (globals w3)) by (subst w3; do 3 apply invoke_config; exact Hc).
      exact C3.
    - subst w4 w3. cbn [trace]. rewrite !invoke_trace, <- !app_assoc. cbn [List.app].
      eexists. split; [reflexivity|]. repeat constructor. }
  pose proof (loop_in_order (trace w) fuel clock w4 Hclock H4) as L. unfold wp in L.
  destruct (loop fuel clock w4); apply L.
Qed.


End Timing.

(** ** More on the drain loop *)

Lemma drain_division (s : StateId) (fuel : nat) : forall w w',
  state (globals w) = Some s ->
  0 < step (globals w) ->
  0 <= lag (globals w) ->
  Int64.fits (lag (globals w)) ->
  drain fuel w = Ok tt w' ->
  exists evs,
    trace w' = trace w ++ evs /\
    Forall2 (call_on s) (pairs (Z.to_nat (lag (globals w) / step (globals w)))) evs /\
    lag (globals w') = lag (globals w) mod step (globals w) /\
    step (globals w') = step (globals w).
Proof.
  induction fuel as [|fuel IH]; intros w w' H Hstep Hlag Hfit; cbn [drain]; unfold bind at 1, get;
    destruct (lag (globals w) >=? step (globals w)) eqn:Hge; try discriminate;
    try (intros E; injection E as <-; rewrite Z.geb_leb in Hge; apply Z.leb_gt in Hge;
         exists []; rewrite app_nil_r, Z.div_small, Z.mod_small by lia;
         repeat split; constructor).
  apply Z.geb_le in Hge.
  unfold bind at 1, modify. unfold bind at 1, get. cbn [globals state set_lag].
  set (w1 := mkWorld _ _ _). rewrite H. unfold bind at 1, call.
  unfold bind at 1, get. rewrite invoke_state. change (state (globals w1)) with (state (globals w)).
  rewrite H. unfold bind at 1. intros E.
  assert (Hsub : Int64.sub (lag (globals w)) (step (globals w)) = lag (globals w) - step (globals w)).
  { apply sub_fits. unfold Int64.fits, Int64.min_int, Int64.max_int in *. lia. }
  destruct (call_on_invoke s React w1 H) as (ev1 & T1 & C1).
  assert (H2 : state (globals (invoke s React w1)) = Some s) by (rewrite invoke_state; exact H).
  destruct (call_on_invoke s Update _ H2) as (ev2 & T2 & C2).
  set (w3 := invoke s Update (invoke s React w1)) in *.
  assert (L3 : lag (globals w3) = lag (globals w) - step (globals w)).
  { subst w3 w1. rewrite !invoke_lag. cbn [globals lag set_lag]. exact Hsub. }
  assert (S3 : step (globals w3) = step (globals w))
    by (subst w3 w1; rewrite !invoke_step; reflexivity).
  destruct (IH w3 w') as (evs & T & F & Hmod & Hst).
  - subst w3. rewrite invoke_state. exact H2.
  - rewrite S3. exact Hstep.
  - rewrite L3. lia.
  - rewrite L3. unfold Int64.fits, Int64.min_int, Int64.max_int in *. lia.
  - exact E.
  - rewrite L3, S3 in F, Hmod. rewrite S3 in Hst.
    assert (Hdiv : lag (globals w) / step (globals w)
                   = (lag (globals w) - step (globals w)) / step (globals w) + 1).
    { rewrite <- Z.div_add by lia. f_equal. lia. }
    assert (Hm : lag (globals w) mod step (globals w)
                 = (lag (globals w) - step (globals w)) mod step (globals w)).
    { rewrite <- (Z.mod_add (lag (globals w) - step (globals w)) 1) by lia. f_equal. lia. }
    exists (ev1 :: ev2 :: evs). split; [|split; [|split]].
    + rewrite T, T2, T1, <- !app_assoc. reflexivity.
    + rewrite Hdiv, Z.add_1_r, Z2Nat.inj_succ by (apply Z.div_pos; lia).
      cbn [pairs]. constructor; [exact C1|]. constructor; [exact C2 | exact F].
    + rewrite Hm. exact Hmod.
    + exact Hst.
Qed.



(** ** More on the statistics *)

(** The statistics of a measurement are those of the elapsed time as it was
    measured: the clamp of [delta] comes after [stats]. *)
Lemma measure_record e g :
  interval (measure e g) = interval (record g e) /\
  frametime (measure e g) = frametime (record g e) /\
  xruns (measure e g) = xruns (record g e).
Proof.
  unfold measure, record.
  destruct (delta (stats (set_delta e g)) >? Int64.mul 4 (step (stats (set_delta e g))));
    repeat split.
Qed.

(** One frame recorded in a window that stays open, or that it closes. *)
Lemma record_exact g e :
  let i := interval g in
  let f := frames i + 1 in
  let t := time i + e in
  let x := interval_xruns i + (if xrunThreshold <? e then 1 else 0) in
  Int64.fits f -> Int64.fits t -> Int64.fits x ->
  record g e =
  if statsInterval <=? t
  then set_interval (mkInterval 0 0 0)
         (set_xruns x (set_frametime (PrimFloat.div (float64_of_int t) (float64_of_int f))
                                     (set_delta e g)))
  else set_interval (mkInterval f t x) (set_delta e g).
Proof.
  intros i f t x Hf Ht Hx. unfold record. rewrite stats_wrapping.
  cbn [set_delta interval delta]. fold i.
  rewrite (add_fits _ _ Hf), (add_fits _ _ Ht), Z.geb_leb, Z.gtb_ltb.
  fold f t. subst x. destruct (xrunThreshold <? e).
  - rewrite (add_fits _ _ Hx). reflexivity.
  - rewrite Z.add_0_r. reflexivity.
Qed.

(** X4. [stats] keeps the window in order: after it, less than a full interval
    is accumulated and the overruns counted are at most the frames counted. *)
Theorem stats_keeps_window (g : Globals) :
  window_ok (interval g) ->
  0 <= delta g ->
  Int64.fits (time (interval g) + delta g) ->
  Int64.fits (frames (interval g) + 1) ->
  window_ok (interval (stats g)).
Proof.
  intros [Ht Hx] Hd Hfit Hf. rewrite stats_wrapping.
  rewrite (add_fits _ _ Hf), (add_fits _ _ Hfit), Z.geb_leb.
  destruct (statsInterval <=? time (interval g) + delta g) eqn:Hge.
  - cbn. unfold window_ok. cbn. unfold statsInterval. cbn. lia.
  - apply Z.leb_gt in Hge. cbn [set_interval interval]. unfold window_ok.
    cbn [frames time interval_xruns]. split; [lia|].
    destruct (delta g >? xrunThreshold).
    + rewrite add_fits by (unfold Int64.fits, Int64.min_int, Int64.max_int in *; lia). lia.
    + lia.
Qed.

Lemma total_app ds1 ds2 : total (ds1 ++ ds2) = total ds1 + total ds2.
Proof. unfold total. induction ds1 as [|d ds1 IH]; cbn [List.app fold_right]; lia. Qed.

Lemma overruns_cons d ds :
  overruns (d :: ds) = (if xrunThreshold <? d then 1 else 0) + overruns ds.
Proof.
  unfold overruns. cbn [filter]. destruct (xrunThreshold <? d); cbn [List.length]; lia.
Qed.

Lemma overruns_app ds1 ds2 : overruns (ds1 ++ ds2) = overruns ds1 + overruns ds2.
Proof. unfold overruns. rewrite filter_app, length_app. apply Nat2Z.inj_add. Qed.

Lemma overruns_bounds ds : 0 <= overruns ds <= Z.of_nat (List.length ds).
Proof.
  unfold overruns. split; [apply Nat2Z.is_nonneg | apply Nat2Z.inj_le, filter_length_le].
Qed.

(** Frames that do not fill the interval are accumulated in the window;
    nothing is published. *)
Lemma measures_accumulate (ds : list Duration) : forall g,
  Forall (fun d : Duration => 0 <= d) ds ->
  window_ok (interval g) ->
  time (interval g) + total ds < statsInterval ->
  frames (interval g) + Z.of_nat (List.length ds) <= Int64.max_int ->
  let g' := fold_left (fun (g : Globals) (e : Duration) => measure e g) ds g in
  interval g' = mkInterval (frames (interval g) + Z.of_nat (List.length ds))
                           (time (interval g) + total ds)
                           (interval_xruns (interval g) + overruns ds) /\
  frametime g' = frametime g /\ xruns g' = xruns g.
Proof.
  induction ds as [|d ds IH]; intros g Hds Hw Ht Hf; cbn [fold_left].
  - unfold total, overruns. cbn. rewrite !Z.add_0_r. destruct (interval g); repeat split.
  - inversion Hds as [|d' ds' Hd Hds']; subst. destruct Hw as [Hwt Hwx].
    unfold total in Ht. cbn [fold_right] in Ht. fold (total ds) in Ht.
    cbn [List.length] in Hf. rewrite Nat2Z.inj_succ in Hf.
    assert (Htot : 0 <= total ds).
    { clear - Hds'. unfold total. induction Hds'; cbn [fold_right]; lia. }
    pose proof (overruns_bounds ds) as Hov.
    assert (Hst : statsInterval = 250000000) by reflexivity.
    assert (Hmax : Int64.max_int = 9223372036854775807) by reflexivity.
    destruct (measure_record d g) as (Ei & Ef & Ex).
    assert (Hr : record g d =
                 set_interval (mkInterval (frames (interval g) + 1) (time (interval g) + d)
                                          (interval_xruns (interval g)
                                           + (if xrunThreshold <? d then 1 else 0)))
                              (set_delta d g)).
    { rewrite record_exact;
        try (unfold Int64.fits, Int64.min_int, Int64.max_int;
             destruct (xrunThreshold <? d); lia).
      replace (statsInterval <=? time (interval g) + d) with false; [reflexivity|].
      symmetry. apply Z.leb_gt. lia. }
    rewrite Hr in Ei, Ef, Ex. cbn [set_interval set_delta interval frametime xruns] in Ei, Ef, Ex.
    specialize (IH (measure d g) Hds').
    rewrite Ei, Ef, Ex in IH. cbn [frames time interval_xruns] in IH.
    destruct IH as (Ii & If & Ix).
    + unfold window_ok. cbn [frames time interval_xruns].
      destruct (xrunThreshold <? d); lia.
    + lia.
    + lia.
    + cbv zeta. rewrite Ii, If, Ix. unfold total. cbn [fold_right List.length].
      fold (total ds). rewrite overruns_cons, Nat2Z.inj_succ. repeat split. f_equal; lia.
Qed.

(** X3. A window from its first frame to the frame that closes it: when the
    frames [ds], measured one after the other from an empty window, stay
    below the interval and the frame [e] reaches it, the frametime published
    is the float quotient of the time of all these frames by their number,
    the overrun count published is the number of these frames above 17 ms,
    and the window is empty again. *)
Theorem stats_over_frames (g : Globals) (ds : list Duration) (e : Duration) :
  interval g = mkInterval 0 0 0 ->
  Forall (fun d : Duration => 0 <= d) ds ->
  total ds < statsInterval ->
  statsInterval <= total ds + e ->
  Int64.fits (total ds + e) ->
  Z.of_nat (List.length ds) < Int64.max_int ->
  let g' := fold_left (fun (g : Globals) (e : Duration) => measure e g) (ds ++ [e]) g in
  frametime g' = PrimFloat.div (float64_of_int (total (ds ++ [e])))
                               (float64_of_int (Z.of_nat (List.length (ds ++ [e])))) /\
  xruns g' = overruns (ds ++ [e]) /\
  interval g' = mkInterval 0 0 0.
Proof.
  intros Hi Hds Ht He Hfit Hlen g'. subst g'. rewrite fold_left_app. cbn [fold_left].
  assert (Hst : statsInterval = 250000000) by reflexivity.
  assert (Hmax : Int64.max_int = 9223372036854775807) by reflexivity.
  destruct (measures_accumulate ds g Hds) as (Ii & _ & _).
  { rewrite Hi. unfold window_ok. cbn. lia. }
  { rewrite Hi. cbn. lia. }
  { rewrite Hi. cbn [frames]. rewrite Z.add_0_l. apply Z.lt_le_incl, Hlen. }
  cbv zeta in Ii. rewrite Hi in Ii. cbn [frames time interval_xruns] in Ii.
  rewrite !Z.add_0_l in Ii.
  set (g1 := fold_left (fun (g : Globals) (e : Duration) => measure e g) ds g) in *.
  destruct (measure_record e g1) as (Ei & Ef & Ex).
  pose proof (overruns_bounds ds) as Hov.
  assert (Hr : record g1 e =
               set_interval (mkInterval 0 0 0)
                 (set_xruns (overruns ds + (if xrunThreshold <? e then 1 else 0))
                    (set_frametime
                       (PrimFloat.div (float64_of_int (total ds + e))
                                      (float64_of_int (Z.of_nat (List.length ds) + 1)))
                       (set_delta e g1)))).
  { rewrite record_exact; rewrite Ii; cbn [frames time interval_xruns];
      try (unfold Int64.fits, Int64.min_int, Int64.max_int in *;
           destruct (xrunThreshold <? e); lia).
    replace (statsInterval <=? total ds + e) with true; [reflexivity|].
    symmetry. apply Z.leb_le. lia. }
  rewrite Hr in Ei, Ef, Ex.
  cbn [set_interval set_xruns set_frametime set_delta interval frametime xruns] in Ei, Ef, Ex.
  rewrite Ei, Ef, Ex, total_app, overruns_app, length_app, Nat2Z.inj_add.
  assert (Et : total [e] = e) by (unfold total; cbn [fold_right]; apply Z.add_0_r).
  assert (Eo : overruns [e] = if xrunThreshold <? e then 1 else 0)
    by (unfold overruns; cbn [filter]; destruct (xrunThreshold <? e); reflexivity).
  rewrite Et, Eo. cbn [List.length]. repeat split.
Qed.

(** ** What no part of a run changes *)

Lemma wp_and {A} (m : M A) (Q1 Q2 : A -> World -> Prop) (E1 E2 : Outcome -> World -> Prop) w :
  wp m Q1 E1 w -> wp m Q2 E2 w ->
  wp m (fun a w' => Q1 a w' /\ Q2 a w') (fun o w' => E1 o w' /\ E2 o w') w.
Proof. unfold wp. destruct (m w); auto. Qed.

Section Stable.

(** A property of the globals that the calls from outside keep, and the
    drain loop's assignments of [lag]. *)
Variable K : Globals -> Prop.
Hypothesis K_exec : forall g c, K g -> K (exec g c).
Hypothesis K_lag : forall g l, K g -> K (set_lag l g).

Lemma K_execs cs : forall g, K g -> K (fold_left exec cs g).
Proof. induction cs as [|c cs IH]; intros g H; cbn [fold_left]; auto. Qed.

Lemma kept_snoc tr0 w g' a' ev :
  kept K tr0 w -> K g' -> sees K ev -> kept K tr0 (mkWorld g' a' (trace w ++ [ev])).
Proof.
  intros [_ (evs & Ht & F)] Hg Hev. split; [exact Hg|].
  exists (evs ++ [ev]). cbn [trace]. split; [rewrite Ht, app_assoc; reflexivity|].
  apply Forall_app. split; [exact F | constructor; [exact Hev | constructor]].
Qed.

Lemma kept_modify tr0 f w :
  kept K tr0 w -> K (f (globals w)) -> kept K tr0 (mkWorld (f (globals w)) (app w) (trace w)).
Proof. intros [_ Ht] Hf. split; assumption. Qed.

Lemma kept_invoke tr0 s m w : kept K tr0 w -> kept K tr0 (invoke s m w).
Proof.
  intros H. unfold invoke. destruct (method s m (globals w) (app w)) as [cs a].
  apply kept_snoc; [exact H | apply K_execs, H | apply H].
Qed.

Lemma kept_call tr0 st m w :
  kept K tr0 w ->
  wp (call st m) (fun _ w' => kept K tr0 w') (fun _ w' => kept K tr0 w') w.
Proof. intros H. destruct st as [s|]; [apply wp_call, kept_invoke, H | exact H]. Qed.

Lemma kept_drain tr0 fuel : forall w,
  kept K tr0 w ->
  wp (drain fuel) (fun _ w' => kept K tr0 w') (fun _ w' => kept K tr0 w') w.
Proof.
  induction fuel as [|fuel IH]; intros w H; cbn [drain];
    apply wp_bind, wp_get; destruct (lag (globals w) >=? step (globals w));
    try (apply wp_halt, H); try (apply wp_ret, H).
  apply wp_bind, wp_modify, wp_bind, wp_get. set (w1 := mkWorld _ _ _).
  assert (H1 : kept K tr0 w1)
    by (apply (kept_modify tr0 (fun g => set_lag (Int64.sub (lag g) (step g)) g) w H),
        K_lag, H).
  apply wp_bind. eapply wp_mono; [apply kept_call, H1 | | auto]. cbv beta.
  intros _ w2 H2. apply wp_bind, wp_get, wp_bind.
  eapply wp_mono; [apply kept_call, H2 | | auto]. cbv beta.
  intros _ w3 H3. apply IH, H3.
Qed.

Lemma kept_callbacks tr0 fuel w :
  kept K tr0 w ->
  wp (callbacks fuel) (fun _ w' => kept K tr0 w') (fun _ w' => kept K tr0 w') w.
Proof.
  intros H. unfold callbacks. apply wp_bind, wp_get, wp_bind.
  assert (R : wp (if lag (globals w) <? step (globals w)
                  then call (state (globals w)) React else ret tt)
                 (fun _ w1 => kept K tr0 w1) (fun _ w1 => kept K tr0 w1) w)
    by (destruct (lag (globals w) <? step (globals w)); [apply kept_call, H | apply wp_ret, H]).
  eapply wp_mono; [exact R | | auto]. cbv beta. intros _ w1 H1.
  apply wp_bind. eapply wp_mono; [apply kept_drain, H1 | | auto]. cbv beta.
  intros _ w2 H2. apply wp_bind, wp_get, kept_call, H2.
Qed.

(** When the options keep it too. *)
Hypothesis K_step : forall g d, K g -> K (set_step d g).

Lemma kept_apply tr0 o w :
  kept K tr0 w ->
  wp (apply o) (fun _ w' => kept K tr0 w') (fun _ w' => kept K tr0 w') w.
Proof.
  intros H. unfold wp. destruct o as [d|n|]; cbn [apply].
  - apply kept_snoc; [exact H | apply K_step, H | exact I].
  - unfold applyCustom. destruct (custom n (globals w) (app w)) as [[cs err] a].
    apply kept_snoc; [exact H | apply K_execs, H | exact I].
  - exact H.
Qed.

Lemma kept_applyOptions tr0 os : forall w,
  kept K tr0 w ->
  wp (applyOptions os) (fun _ w' => kept K tr0 w') (fun _ w' => kept K tr0 w') w.
Proof.
  induction os as [|o os IH]; intros w H; cbn [applyOptions]; [apply wp_ret, H|].
  apply wp_bind. eapply wp_mono; [apply kept_apply, H | | auto]. cbv beta.
  intros [e|] w1 H1; [apply wp_halt, H1 | apply IH, H1].
Qed.

(** When [state = next] keeps it as well: every method call of an
    iteration finds it. *)
Hypothesis K_state : forall g st, K g -> K (set_state st g).

Lemma kept_iteration_calls fuel e w :
  K (globals w) ->
  wp (iteration fuel e)
     (fun _ w' => grows (sees K) w w') (fun _ w' => grows (sees K) w w') w.
Proof.
  intros H. unfold iteration. apply wp_bind, wp_modify, wp_bind, wp_get.
  cbn [globals]. set (w0 := mkWorld _ _ _).
  assert (H0 : kept K (trace w) w0).
  { split; [apply K_state, H|]. exists []. cbn [w0 trace]. rewrite app_nil_r.
    split; constructor. }
  apply wp_bind. eapply wp_mono; [apply kept_applyOptions, H0 | | ]; cbv beta.
  - intros _ w1 H1. apply wp_bind.
    eapply wp_mono; [apply kept_callbacks, H1 | | ]; cbv beta.
    + intros _ w2 H2. apply wp_modify. exact (proj2 H2).
    + intros o w2 H2. exact (proj2 H2).
  - intros o w1 H1. exact (proj2 H1).
Qed.

(** When the rest of [Run] keeps it: it holds throughout the run. *)
Hypothesis K_measure : forall g e, K g -> K (measure e g).
Hypothesis K_next : forall g st, K g -> K (set_next st g).
Hypothesis K_delta : forall g d, K g -> K (set_delta d g).

Lemma kept_iteration tr0 fuel e w :
  kept K tr0 w ->
  wp (iteration fuel e) (fun _ w' => kept K tr0 w') (fun _ w' => kept K tr0 w') w.
Proof.
  intros H. unfold iteration. apply wp_bind, wp_modify, wp_bind, wp_get.
  cbn [globals]. set (w0 := mkWorld _ _ _).
  assert (H0 : kept K tr0 w0)
    by (apply (kept_modify tr0 (fun g => set_state (next g) g) w H), K_state, H).
  apply wp_bind. eapply wp_mono; [apply kept_applyOptions, H0 | | auto]. cbv beta.
  intros _ w1 H1. apply wp_bind.
  eapply wp_mono; [apply kept_callbacks, H1 | | auto]. cbv beta.
  intros _ w2 H2. apply wp_modify, (kept_modify tr0 (measure e) w2 H2), K_measure, H2.
Qed.

Lemma kept_loop tr0 fuel clock : forall w,
  kept K tr0 w ->
  wp (loop fuel clock) (fun _ w' => kept K tr0 w') (fun _ w' => kept K tr0 w') w.
Proof.
  assert (Exit : forall w, kept K tr0 w ->
    wp (call (state (globals w)) Leave ;; modify (set_state None) ;; ret (@None error))
       (fun _ w' => kept K tr0 w') (fun _ w' => kept K tr0 w') w).
  { intros w H. apply wp_bind. eapply wp_mono; [apply kept_call, H | | auto]. cbv beta.
    intros _ w1 H1. apply wp_bind, wp_modify, wp_ret.
    apply (kept_modify tr0 (set_state None) w1 H1), K_state, H1. }
  induction clock as [|e clock IH]; intros w H; cbn [loop]; apply wp_bind, wp_get;
    destruct (next (globals w)); try (apply Exit, H).
  - apply wp_halt, H.
  - apply wp_bind. eapply wp_mono; [apply kept_iteration, H | | auto]. cbv beta.
    intros _ w1 H1. apply IH, H1.
Qed.

Lemma kept_Run start fuel clock w :
  K (globals w) -> kept K (trace w) (snd (Run start fuel clock w)).
Proof.
  intros H.
  assert (H0 : kept K (trace w) w)
    by (split; [exact H|]; exists []; rewrite app_nil_r; split; constructor).
  assert (R : wp (body start fuel clock)
                 (fun _ w' => kept K (trace w) w') (fun _ w' => kept K (trace w) w') w).
  { unfold body. apply wp_bind, wp_get. destruct (Running (globals w)); [apply wp_ret, H0|].
    apply wp_bind. eapply wp_mono; [apply kept_call, H0 | | auto]. cbv beta.
    intros _ w1 H1. apply wp_bind. eapply wp_mono; [apply kept_call, H1 | | auto]. cbv beta.
    intros _ w2 H2. apply wp_bind. eapply wp_mono; [apply kept_call, H2 | | auto]. cbv beta.
    intros _ w3 H3. apply wp_bind, wp_modify, wp_bind, wp_modify. cbn [globals app trace].
    apply kept_loop. split; [|exact (proj2 H3)]. cbn [globals].
    apply K_lag, K_delta, K_next, H3. }
  unfold wp in R. unfold Run. destruct (body start fuel clock w); exact R.
Qed.

End Stable.

(** ** The option queue *)


(** The options that return nil leave the step of the last [TimeStep], and
    leave [lag] alone. *)
Lemma applyOptions_step os : forall w w',
  applyOptions os w = Ok tt w' ->
  step (globals w') = last_step os (step (globals w)) /\
  lag (globals w') = lag (globals w).
Proof.
  unfold last_step.
  induction os as [|o os IH]; intros w w'; cbn [applyOptions fold_left].
  - intros H. injection H as <-. split; reflexivity.
  - unfold bind. destruct (apply o w) as [err w1|out w1] eqn:Ha; [|discriminate].
    destruct err as [e|]; [discriminate|]. intros H.
    destruct (IH _ _ H) as [Hs Hl]. rewrite Hs, Hl.
    destruct (apply_ok _ _ _ _ Ha) as (_ & Hl1 & _). split; [|exact Hl1].
    f_equal. destruct o as [d|n|]; cbn [apply] in Ha.
    + injection Ha as <-. reflexivity.
    + destruct (applyCustom n w) as [e1 w2] eqn:Hc. injection Ha as _ <-.
      pose proof (applyCustom_globals n w) as Hg. rewrite Hc in Hg. cbn [snd] in Hg.
      rewrite Hg. apply execs_step.
    + discriminate.
Qed.

(** Options being applied are no method calls. *)
Lemma applied_sees K err os evs : Forall2 (applied err) os evs -> Forall (sees K) evs.
Proof.
  induction 1 as [|o ev os evs [cs ->] _ IH]; constructor; [exact I | exact IH].
Qed.

(** The calls of lines 115-126, in order. *)
Lemma callbacks_calls s fuel w w' :
  state (globals w) = Some s ->
  callbacks fuel w = Ok tt w' ->
  exists k evs,
    trace w' = trace w ++ evs /\
    Forall2 (call_on s)
            ((if lag (globals w) <? step (globals w) then [React] else [])
             ++ pairs k ++ [Render]) evs /\
    state (globals w') = Some s /\
    step (globals w') = step (globals w).
Proof.
  intros H Hc.
  set (w1 := if lag (globals w) <? step (globals w) then invoke s React w else w).
  assert (E1 : callbacks fuel w = (drain fuel ;; g <- get ;; call (state g) Render) w1).
  { unfold callbacks, bind at 1, get. rewrite H. subst w1.
    destruct (lag (globals w) <? step (globals w)); reflexivity. }
  assert (S1 : state (globals w1) = Some s).
  { subst w1. destruct (lag (globals w) <? step (globals w)); [rewrite invoke_state|]; exact H. }
  assert (L1 : step (globals w1) = step (globals w)).
  { subst w1. destruct (lag (globals w) <? step (globals w)); [rewrite invoke_step|]; reflexivity. }
  assert (T1 : exists evs1, trace w1 = trace w ++ evs1 /\
            Forall2 (call_on s) (if lag (globals w) <? step (globals w) then [React] else []) evs1).
  { subst w1. destruct (lag (globals w) <? step (globals w)).
    - destruct (call_on_invoke s React w H) as (ev & T & C).
      exists [ev]. split; [exact T|]. constructor; [exact C | constructor].
    - exists []. rewrite app_nil_r. split; constructor. }
  rewrite E1 in Hc. unfold bind at 1 in Hc.
  destruct (drain fuel w1) as [[] w2|o w2] eqn:Hd; [|discriminate].
  destruct (drain_shape s fuel _ _ S1 Hd) as (k & evs2 & T2 & F2 & _).
  pose proof (wp_ok _ _ _ _ _ _ Hd (drain_phase s fuel w1 S1)) as [S2 _].
  pose proof (wp_ok _ _ _ _ _ _ Hd
                (kept_drain (fun g => step g = step (globals w1))
                   (fun g c Hg => eq_trans (proj1 (proj2 (exec_frame g c))) Hg)
                   (fun g l Hg => Hg) (trace w1) fuel w1
                   (conj eq_refl (ex_intro _ [] (conj (eq_sym (app_nil_r _)) (Forall_nil _))))))
    as [St2 _].
  unfold bind, get, call in Hc. rewrite S2 in Hc. injection Hc as <-.
  destruct (call_on_invoke s Render w2 S2) as (ev3 & T3 & C3).
  destruct T1 as (evs1 & T1 & F1).
  exists k, (evs1 ++ evs2 ++ [ev3]). split; [|split; [|split]].
  - rewrite T3, T2, T1, <- !app_assoc. reflexivity.
  - apply Forall2_app; [exact F1|]. apply Forall2_app; [exact F2|].
    constructor; [exact C3 | constructor].
  - rewrite invoke_state. exact S2.
  - rewrite invoke_step, St2. exact L1.
Qed.

(** The parts of an iteration that runs to its end. *)
Lemma iteration_anatomy s fuel e w w1 :
  next (globals w) = Some s ->
  iteration fuel e w = Ok tt w1 ->
  exists wa wc,
    applyOptions (options (globals w)) (promote w) = Ok tt wa /\
    callbacks fuel wa = Ok tt wc /\
    w1 = mkWorld (measure e (globals wc)) (app wc) (trace wc) /\
    state (globals wa) = Some s.
Proof.
  intros Hn Hi. rewrite iteration_promote in Hi. unfold bind at 1 in Hi.
  destruct (applyOptions (options (globals w)) (promote w)) as [[] wa|o wa] eqn:Ha;
    [|discriminate].
  unfold bind at 1 in Hi. destruct (callbacks fuel wa) as [[] wc|o wc] eqn:Hc; [|discriminate].
  unfold modify in Hi. injection Hi as <-.
  exists wa, wc. split; [reflexivity|]. split; [exact Hc|]. split; [reflexivity|].
  assert (S0 : state (globals (promote w)) = Some s) by exact Hn.
  apply (wp_ok _ _ _ _ _ _ Ha (applyOptions_phase s _ _ S0)).
Qed.

(** X9. The order of an iteration: first every option of the queue as it is at
    the top of the iteration, once each and in the order of the queue; then
    the method calls on the current state: React if [lag] is below the step
    the options left, the rounds of React and Update, and Render. *)
Theorem iteration_order (s : StateId) (fuel : nat) (e : Duration) (w w1 : World) :
  next (globals w) = Some s ->
  iteration fuel e w = Ok tt w1 ->
  let step' := last_step (options (globals w)) (Step (globals w)) in
  exists evs_o k evs_c,
    trace w1 = trace w ++ evs_o ++ evs_c /\
    Forall2 (applied None) (options (globals w)) evs_o /\
    Forall2 (call_on s)
            ((if Lag (globals w) <? step' then [React] else []) ++ pairs k ++ [Render])
            evs_c.
Proof.
  intros Hn Hi step'.
  destruct (iteration_anatomy s fuel e w w1 Hn Hi) as (wa & wc & Ha & Hc & -> & Sa).
  destruct (applyOptions_ok _ _ _ Ha) as (evs_o & To & Fo).
  destruct (applyOptions_step _ _ _ Ha) as [Hs Hl].
  destruct (callbacks_calls s fuel wa wc Sa Hc) as (k & evs_c & Tc & Fc & _).
  exists evs_o, k, evs_c. split; [|split; [exact Fo|]].
  - cbn [trace]. rewrite Tc, To. cbn [promote trace]. symmetry. apply app_assoc.
  - rewrite Hs, Hl in Fc. exact Fc.
Qed.


(** X10. Within an iteration [Delta] and the statistics stand still: every
    method call of the iteration finds the delta, the frametime, the overrun
    count and the window that the iteration found at its top, whether the
    iteration runs to its end or not. *)
Theorem iteration_sees_same_measures (fuel : nat) (e : Duration) (w : World) :
  let K := fun g => Delta g = Delta (globals w) /\ Stats g = Stats (globals w) /\
                    frametime g = frametime (globals w) /\
                    interval g = interval (globals w) in
  match iteration fuel e w with
  | Ok _ w1 | Halt _ w1 => exists evs, trace w1 = trace w ++ evs /\ Forall (sees K) evs
  end.
Proof.
  intros K.
  assert (R : wp (iteration fuel e)
                 (fun _ w' => grows (sees K) w w') (fun _ w' => grows (sees K) w w') w).
  { apply kept_iteration_calls; subst K; cbv beta.
    - intros g c (A & B & C & D). destruct (exec_frame g c) as (_ & _ & Hd & _ & Hf & Hx & Hi).
      unfold Delta, Stats in *. cbv zeta in *. rewrite Hd, Hf, Hx, Hi. auto.
    - intros g l H. exact H.
    - intros g d H. exact H.
    - intros g st H. exact H.
    - repeat split. }
  unfold wp in R. destruct (iteration fuel e w); exact R.
Qed.

(** ** Enter and Leave *)

Lemma count_Enter_in_loop evs : Forall in_loop evs -> count_method Enter evs = 0%nat.
Proof.
  unfold count_method. induction 1 as [|ev evs [s H] _ IH]; [reflexivity|].
  cbn [filter]. destruct ev as [s' m g cs|]; cbn [is_call]; [|exact IH].
  destruct H as (_ & _ & [->|[->| ->]]); exact IH.
Qed.

Lemma count_method_cons m ev evs :
  count_method m (ev :: evs) = ((if is_call m ev then 1 else 0) + count_method m evs)%nat.
Proof. unfold count_method. cbn [filter]. destruct (is_call m ev); reflexivity. Qed.

(** The trace of the loop: events of iterations, then Leave if the loop is
    left normally. *)
Lemma loop_trace fuel clock : forall w,
  wp (loop fuel clock)
     (fun _ w' => exists evs s g cs,
                    trace w' = trace w ++ evs ++ [Called s Leave g cs] /\ Forall in_loop evs)
     (fun _ w' => grows in_loop w w') w.
Proof.
  assert (Exit : forall clock w, next (globals w) = None ->
    wp (loop fuel clock)
       (fun _ w' => exists evs s g cs,
                      trace w' = trace w ++ evs ++ [Called s Leave g cs] /\ Forall in_loop evs)
       (fun _ w' => grows in_loop w w') w).
  { intros clock' w Hn. unfold wp. destruct (state (globals w)) as [s|] eqn:Hs.
    - rewrite (loop_exit _ _ _ _ Hn Hs). exists [], s. do 2 eexists.
      split; [|constructor]. unfold finish. cbn [trace List.app]. apply invoke_trace.
    - destruct clock'; cbn [loop]; unfold bind at 1, get; rewrite Hn;
        unfold bind, call; rewrite Hs; apply grows_refl. }
  induction clock as [|e clock IH]; intros w;
    destruct (next (globals w)) as [s|] eqn:Hn; try (apply Exit; exact Hn).
  - unfold wp. cbn [loop]. unfold bind, get. rewrite Hn. apply grows_refl.
  - unfold wp. rewrite (loop_cons _ _ _ _ _ Hn).
    fold (wp (iteration fuel e ;; loop fuel clock)
       (fun _ w' => exists evs s g cs,
                      trace w' = trace w ++ evs ++ [Called s Leave g cs] /\ Forall in_loop evs)
       (fun _ w' => grows in_loop w w') w).
    apply wp_bind. eapply wp_mono; [apply (iteration_phase s), Hn | |]; cbv beta.
    + intros _ w1 P. destruct (phase_grows _ _ _ P) as (evs1 & T1 & F1).
      eapply wp_mono; [apply IH | |]; cbv beta.
      * intros _ w2 (evs2 & s2 & g2 & cs2 & T2 & F2).
        exists (evs1 ++ evs2), s2, g2, cs2. split.
        -- rewrite T2, T1, <- !app_assoc. reflexivity.
        -- apply Forall_app. split; assumption.
      * intros o w2 G2. eapply grows_trans; [exists evs1; split; eassumption | exact G2].
    + intros o w1 [P _]. eapply phase_grows, P.
Qed.



End Loop.

(** ** The properties at work on the sample application *)

Lemma Run_already_running_witness :
  let w := mkWorld nat (set_state (Some 2%nat) initial) 1%nat [] in
  Running (globals nat w) = true /\
  Run nat demo_method demo_custom (Some 0%nat) 10 [16 * Millisecond] w
  = (Returned (Some already_running), w).
Proof.
  split; [reflexivity|].
  apply (Run_already_running nat demo_method demo_custom). reflexivity.
Defined.

(** The option [Custom 0] fails in the third iteration: [Run] returns its
    error and leaves [state] set. *)
Lemma Run_option_error_witness :
  fst (Run nat demo_method demo_custom (Some 0%nat) 10
           ([16 * Millisecond; 16 * Millisecond] ++ 16 * Millisecond :: [])
           (mkWorld nat demo_globals 0%nat []))
  = Returned (Some "boom"%string) /\
  state (globals nat (snd (Run nat demo_method demo_custom (Some 0%nat) 10
           ([16 * Millisecond; 16 * Millisecond] ++ 16 * Millisecond :: [])
           (mkWorld nat demo_globals 0%nat []))))
  = Some 2%nat.
Proof.
  pose (w0 := mkWorld nat demo_globals 0%nat []).
  pose (w := match iterate nat demo_method demo_custom 10
                     [16 * Millisecond; 16 * Millisecond] (prime nat demo_method 0%nat w0) with
             | Some w => w
             | None => w0
             end).
  pose (w1 := match applyOptions nat demo_custom [TimeStep (20 * Millisecond)]
                      (promote nat w) with
              | Ok _ _ _ w1 => w1
              | Halt _ _ _ w1 => w1
              end).
  pose (w' := match apply nat demo_custom (Custom 0) w1 with
              | Ok _ _ _ w' => w'
              | Halt _ _ _ w' => w'
              end).
  destruct (Run_option_error nat demo_method demo_custom 0%nat 10%nat
              [16 * Millisecond; 16 * Millisecond] (16 * Millisecond) []
              w0 w w1 w' 2%nat [TimeStep (20 * Millisecond)] (Custom 0) [Custom 1]
              "boom"%string)
    as (Hrun & _ & Hstate).
  - reflexivity.
  - apply iterate_reaches. vm_compute. reflexivity.
  - vm_compute. reflexivity.
  - vm_compute. reflexivity.
  - vm_compute. reflexivity.
  - vm_compute. reflexivity.
  - split; [exact (f_equal fst Hrun)|].
    exact (eq_trans (f_equal (fun r => state (globals nat (snd r))) Hrun) Hstate).
Defined.

(** The third Render asks to stop: the run exits, [Run] returns nil and
    [Running] reports false again. *)
Lemma Run_natural_exit_witness :
  fst (Run nat demo_method demo_custom (Some 0%nat) 10
           ([50 * Millisecond; 16 * Millisecond; 16 * Millisecond] ++ [16 * Millisecond])
           (mkWorld nat initial 0%nat []))
  = Returned None /\
  Running (globals nat (snd (Run nat demo_method demo_custom (Some 0%nat) 10
           ([50 * Millisecond; 16 * Millisecond; 16 * Millisecond] ++ [16 * Millisecond])
           (mkWorld nat initial 0%nat []))))
  = false.
Proof.
  pose (w0 := mkWorld nat initial 0%nat []).
  pose (w := match iterate nat demo_method demo_custom 10
                     [50 * Millisecond; 16 * Millisecond; 16 * Millisecond]
                     (prime nat demo_method 0%nat w0) with
             | Some w => w
             | None => w0
             end).
  destruct (Run_natural_exit nat demo_method demo_custom 0%nat 10%nat
              [50 * Millisecond; 16 * Millisecond; 16 * Millisecond] [16 * Millisecond]
              w0 w)
    as (s & evs & g & cs & _ & Hrun & _ & _ & _ & _ & Hidle).
  - reflexivity.
  - apply iterate_reaches. vm_compute. reflexivity.
  - vm_compute. reflexivity.
  - split; [exact (f_equal fst Hrun)|].
    exact (eq_trans (f_equal (fun r => Running (globals nat (snd r))) Hrun) Hidle).
Defined.



Lemma demo_method_good s m g a : Forall good_call (fst (demo_method s m g a)).
Proof.
  destruct m; cbn [demo_method fst].
  - constructor.
  - constructor.
  - destruct s; repeat constructor.
  - constructor.
  - destruct (2 <=? a)%nat; repeat constructor.
Qed.

Lemma demo_custom_good n g a : Forall good_call (fst (fst (demo_custom n g a))).
Proof. destruct n; constructor. Qed.


(** In the first iteration React of state 0 calls [Goto] twice: the second
    call decides, and [next] holds state 2 when the iteration ends. *)
Lemma Goto_last_write_wins_witness :
  next (globals nat
          (match iteration nat demo_method demo_custom 10 (16 * Millisecond)
                   (prime nat demo_method 0%nat (mkWorld nat initial 0%nat [])) with
           | Ok _ _ _ w1 => w1
           | Halt _ _ _ w1 => w1
           end))
  = Some 2%nat.
Proof.
  destruct (Goto_last_write_wins nat demo_method demo_custom 0%nat 10%nat (16 * Millisecond)
              (prime nat demo_method 0%nat (mkWorld nat initial 0%nat []))
              (match iteration nat demo_method demo_custom 10 (16 * Millisecond)
                       (prime nat demo_method 0%nat (mkWorld nat initial 0%nat [])) with
               | Ok _ _ _ w1 => w1
               | Halt _ _ _ w1 => w1
               end))
    as (evs & Ht & _ & _ & Hgoto & _).
  - reflexivity.
  - vm_compute. reflexivity.
  - assert (Hissued : issued evs = [CallGoto (Some 1%nat)] ++ CallGoto (Some 2%nat) :: [])
      by (vm_compute in Ht; injection Ht as <-; reflexivity).
    destruct (Hgoto [CallGoto (Some 1%nat)] (Some 2%nat) [] Hissued eq_refl) as [Hnext _].
    exact Hnext.
Defined.

(** A frame of 250 ms closes the window at once: the average is published
    and the window is cleared. *)
Lemma stats_window_witness :
  frametime (stats (set_delta (250 * Millisecond) initial))
  = PrimFloat.div (float64_of_int (250 * Millisecond)) (float64_of_int 1) /\
  xruns (stats (set_delta (250 * Millisecond) initial)) = 1 /\
  interval (stats (set_delta (250 * Millisecond) initial)) = mkInterval 0 0 0.
Proof.
  apply (proj1 (stats_window (set_delta (250 * Millisecond) initial)
                  ltac:(split; discriminate) ltac:(split; discriminate)
                  ltac:(split; discriminate))).
  discriminate.
Defined.

(** C1 fails on the code.  A run of one frame of 250 ms completes a window:
    the package then holds the average frametime 250000000 and one overrun,
    but [Stats] returns 0 and one overrun, its first result being the result
    variable that hides the package variable. *)
Theorem Stats_loses_frametime :
  let g := globals nat (snd (Run nat (fun _ m _ a => (match m with Render => [CallStop] | _ => [] end, a))
                                 demo_custom (Some 0%nat) 1 [250 * Millisecond]
                                 (mkWorld nat initial 0%nat []))) in
  frametime g = float64_of_int 250000000 /\
  xruns g = 1 /\
  Stats g = (PrimFloat.zero, 1) /\
  fst (Stats g) <> frametime g.
Proof.
  vm_compute. repeat split. intros H.
  apply (f_equal (fun x => PrimFloat.eqb x PrimFloat.zero)) in H.
  vm_compute in H. discriminate.
Qed.



(** Frames of 100 ms, 100 ms and 60 ms close a window with three overruns. *)
Lemma stats_over_frames_witness :
  xruns (fold_left (fun (g : Globals) (e : Duration) => measure e g)
                   ([100 * Millisecond; 100 * Millisecond] ++ [60 * Millisecond]) initial)
  = 3 /\
  interval (fold_left (fun (g : Globals) (e : Duration) => measure e g)
                      ([100 * Millisecond; 100 * Millisecond] ++ [60 * Millisecond]) initial)
  = mkInterval 0 0 0.
Proof.
  destruct (stats_over_frames initial [100 * Millisecond; 100 * Millisecond]
              (60 * Millisecond))
    as (_ & Hx & Hi).
  - reflexivity.
  - repeat constructor; discriminate.
  - reflexivity.
  - discriminate.
  - split; discriminate.
  - reflexivity.
  - split; [exact Hx | exact Hi].
Defined.

(** A frame of 20 ms recorded in the empty window. *)
Lemma stats_keeps_window_witness :
  window_ok (interval (stats (set_delta (20 * Millisecond) initial))).
Proof.
  apply stats_keeps_window.
  - split; split; first [discriminate | reflexivity].
  - discriminate.
  - split; discriminate.
  - split; discriminate.
Defined.



(** The first iteration of the sample application with its three options:
    the options are applied first, and the step is the 20 ms of the
    [TimeStep] option. *)
Lemma iteration_order_witness :
  exists evs_o evs_c,
    trace nat
      (match iteration nat demo_method demo_custom 10 (16 * Millisecond)
               (prime nat demo_method 0%nat (mkWorld nat demo_globals 0%nat [])) with
       | Ok _ _ _ w1 => w1
       | Halt _ _ _ w1 => w1
       end)
    = trace nat (prime nat demo_method 0%nat (mkWorld nat demo_globals 0%nat []))
      ++ evs_o ++ evs_c /\
    Forall2 (applied None) [TimeStep (20 * Millisecond); Custom 0; Custom 1] evs_o.
Proof.
  destruct (iteration_order nat demo_method demo_custom 0%nat 10%nat (16 * Millisecond)
              (prime nat demo_method 0%nat (mkWorld nat demo_globals 0%nat []))
              (match iteration nat demo_method demo_custom 10 (16 * Millisecond)
                       (prime nat demo_method 0%nat (mkWorld nat demo_globals 0%nat [])) with
               | Ok _ _ _ w1 => w1
               | Halt _ _ _ w1 => w1
               end))
    as (evs_o & k & evs_c & Ht & Fo & _).
  - reflexivity.
  - vm_compute. reflexivity.
  - exists evs_o, evs_c. split; [exact Ht|].
    refine (eq_ind _ (fun os => Forall2 (applied None) os evs_o) Fo _ _).
    vm_compute. reflexivity.
Defined.

